(** * The pivid frame loader (frame_loader.cpp / frame_loader.h)

    A shallow embedding of [ThreadFrameLoader]: the cache state [Loaded], the
    caller operation [set_request], and the worker [loader_thread] cut into
    the segments it runs while holding the loader mutex.  The media decoder,
    the opener callback and the display driver are external: their answers
    are inputs of the worker's steps.  TRACE/logger output does not touch the
    modelled state and is left out. *)

From Stdlib Require Import ZArith List Bool Lia Arith Sorted.
From Stdlib Require String.
Import ListNotations.

Local Open Scope Z_scope.

(* ================================================================== *)
(** ** Time *)

(** Modelled from the spec: the scalar [Seconds] of interval_set.h /
    unix_system.h (not part of the sources at hand).  The spec asks for an
    ordered scalar with "a distinguished value [forever] [that] represents
    positive infinity"; finite instants are integer ticks. *)
Inductive Seconds : Type :=
| Fin (ticks : Z)
| Forever.

Definition forever : Seconds := Forever.

(** [Seconds x = {}] in the source: the zero duration. *)
Definition zero_seconds : Seconds := Fin 0.

Definition sec_lt (a b : Seconds) : Prop :=
  match a, b with
  | Fin x, Fin y => x < y
  | Fin _, Forever => True
  | Forever, _ => False
  end.

Definition sec_le (a b : Seconds) : Prop :=
  match a, b with
  | Fin x, Fin y => x <= y
  | _, Forever => True
  | Forever, Fin _ => False
  end.

Definition sec_ltb (a b : Seconds) : bool :=
  match a, b with
  | Fin x, Fin y => x <? y
  | Fin _, Forever => true
  | Forever, _ => false
  end.

Definition sec_leb (a b : Seconds) : bool := negb (sec_ltb b a).

Definition sec_eqb (a b : Seconds) : bool :=
  match a, b with
  | Fin x, Fin y => x =? y
  | Forever, Forever => true
  | _, _ => false
  end.

(** [std::max] and [std::min] on [Seconds]. *)
Definition sec_max (a b : Seconds) : Seconds := if sec_ltb a b then b else a.
Definition sec_min (a b : Seconds) : Seconds := if sec_ltb b a then b else a.

Definition Seconds_eq_dec (a b : Seconds) : {a = b} + {a <> b}.
Proof. decide equality. apply Z.eq_dec. Defined.

(* ================================================================== *)
(** ** Intervals and interval sets *)

(** Modelled from the spec: [Interval] of interval_set.h, "a half-open range
    [begin, end)", "empty iff [begin == end]". *)
Record Interval : Type := mkInterval { i_begin : Seconds; i_end : Seconds }.

Definition Interval_eq_dec (a b : Interval) : {a = b} + {a <> b}.
Proof. decide equality; apply Seconds_eq_dec. Defined.

Definition contains (i : Interval) (t : Seconds) : Prop :=
  sec_le (i_begin i) t /\ sec_lt t (i_end i).

Definition containsb (i : Interval) (t : Seconds) : bool :=
  sec_leb (i_begin i) t && sec_ltb t (i_end i).

Definition nonempty (i : Interval) : Prop := sec_lt (i_begin i) (i_end i).
Definition nonemptyb (i : Interval) : bool := sec_ltb (i_begin i) (i_end i).

(** Modelled from the spec: [IntervalSet] of interval_set.h, "a canonical,
    non-overlapping, non-adjacent ordered collection of intervals"; it is
    kept as the ascending list of its stored intervals, the order in which
    the source iterates over it. *)
Definition IntervalSet : Type := list Interval.

Definition IntervalSet_eq_dec (a b : IntervalSet) : {a = b} + {a <> b} :=
  list_eq_dec Interval_eq_dec a b.

(** [a == b] on interval sets. *)
Definition set_eqb (a b : IntervalSet) : bool :=
  if IntervalSet_eq_dec a b then true else false.

(** [s.empty()]. *)
Definition set_empty (s : IntervalSet) : bool :=
  match s with [] => true | _ :: _ => false end.

(** A time point lies in the set. *)
Definition covers (s : IntervalSet) (t : Seconds) : Prop :=
  exists i, In i s /\ contains i t.

Definition coversb (s : IntervalSet) (t : Seconds) : bool :=
  existsb (fun i => containsb i t) s.

(** What is left of one stored interval [j] once [cut] is taken away: the
    piece before [cut] and the piece after it, each only if not empty
    ("[erase] of [a, b) splits any interval strictly containing it into
    two"; "no interval is empty"). *)
Definition cut_interval (cut j : Interval) : list Interval :=
  let before := mkInterval (i_begin j) (sec_min (i_end j) (i_begin cut)) in
  let after := mkInterval (sec_max (i_begin j) (i_end cut)) (i_end j) in
  (if nonemptyb before then [before] else []) ++
  (if nonemptyb after then [after] else []).

(** Modelled from the spec: [IntervalSet::erase(Interval)]. *)
Definition erase (cut : Interval) (s : IntervalSet) : IntervalSet :=
  if nonemptyb cut then flat_map (cut_interval cut) s else s.

(** Modelled from the spec: [IntervalSet::erase(IntervalSet const&)], the
    difference [s - cuts]. *)
Definition erase_set (cuts : IntervalSet) (s : IntervalSet) : IntervalSet :=
  fold_left (fun acc cut => erase cut acc) cuts s.

(** The smallest interval holding both [a] and [b]. *)
Definition hull (a b : Interval) : Interval :=
  mkInterval (sec_min (i_begin a) (i_begin b)) (sec_max (i_end a) (i_end b)).

Fixpoint insert_nonempty (i : Interval) (s : IntervalSet) : IntervalSet :=
  match s with
  | [] => [i]
  | j :: rest =>
      if sec_ltb (i_end j) (i_begin i) then j :: insert_nonempty i rest
      else if sec_ltb (i_end i) (i_begin j) then i :: j :: rest
      else insert_nonempty (hull i j) rest
  end.

(** Modelled from the spec: [IntervalSet::insert(Interval)]; "equal
    endpoints coalesce into a single longer interval on insert; adjacent
    insert ([a, b) U [b, c)) yields [a, c)"; an empty interval adds nothing
    ("no interval is empty"). *)
Definition insert (i : Interval) (s : IntervalSet) : IntervalSet :=
  if nonemptyb i then insert_nonempty i s else s.

(** Iterators into an interval set are positions in the ascending list;
    [s.end()] is [length s]. *)
Definition set_iterator : Type := nat.

Fixpoint first_index {A} (p : A -> bool) (l : list A) : nat :=
  match l with
  | [] => O
  | x :: rest => if p x then O else S (first_index p rest)
  end.

(** Modelled from the spec: [overlap_begin(t)], the position of "the first
    stored interval that intersects [t, oo)", that is the first one ending
    after [t]; [end()] when there is none. *)
Definition overlap_begin (s : IntervalSet) (t : Seconds) : set_iterator :=
  first_index (fun i => sec_ltb t (i_end i)) s.

(** Modelled from the spec: [overlap_end(t)], the position just past the last
    stored interval that begins before [t], so that the positions from
    [overlap_begin a] up to [overlap_end b] are the stored intervals that
    intersect [a, b) and the two are equal when "no wanted interval
    intersects the frame". *)
Definition overlap_end (s : IntervalSet) (t : Seconds) : set_iterator :=
  first_index (fun i => sec_leb t (i_begin i)) s.

(** [*it]: undefined at [end()]. *)
Definition deref (s : IntervalSet) (it : set_iterator) : option Interval :=
  nth_error s it.

(* ================================================================== *)
(** ** Ordered maps *)

(** [std::map<Seconds, V>] as the list of its entries in ascending key
    order; an iterator is a position in that list and [end()] is its
    length. *)
Section OrderedMap.
Context {V : Type}.

Definition omap : Type := list (Seconds * V).
Definition map_iterator : Type := nat.

Definition keys (m : omap) : list Seconds := map fst m.

(** [m.lower_bound(k)]: the first entry whose key is not less than [k]. *)
Definition lower_bound (m : omap) (k : Seconds) : map_iterator :=
  first_index (fun e => sec_leb k (fst e)) m.

(** [m.upper_bound(k)]: the first entry whose key is greater than [k]. *)
Definition upper_bound (m : omap) (k : Seconds) : map_iterator :=
  first_index (fun e => sec_ltb k (fst e)) m.

(** [m.find(k)]: the entry with key [k], or [end()]. *)
Definition find_key (m : omap) (k : Seconds) : map_iterator :=
  let it := lower_bound m k in
  match nth_error m it with
  | Some (k', _) => if sec_eqb k k' then it else length m
  | None => length m
  end.

(** [m.erase(first, last)] for [first <= last]. *)
Definition erase_range (m : omap) (first last : map_iterator) : omap :=
  firstn first m ++ skipn last m.

(** [m.erase(it)] and the removal done by [m.extract(it)]. *)
Definition erase_at (m : omap) (it : map_iterator) : omap :=
  firstn it m ++ skipn (S it) m.

(** [m[k] = v]: insert or overwrite. *)
Fixpoint assign (k : Seconds) (v : V) (m : omap) : omap :=
  match m with
  | [] => [(k, v)]
  | (k', v') :: rest =>
      if sec_ltb k k' then (k, v) :: m
      else if sec_eqb k k' then (k, v) :: rest
      else (k', v') :: assign k v rest
  end.

(** [m.insert({k, v})]: an entry already stored under [k] stays and the
    new one is dropped. *)
Fixpoint map_insert (k : Seconds) (v : V) (m : omap) : omap :=
  match m with
  | [] => [(k, v)]
  | (k', v') :: rest =>
      if sec_ltb k k' then (k, v) :: m
      else if sec_eqb k k' then m
      else (k', v') :: map_insert k v rest
  end.

(** Strictly ascending keys: what [std::map] guarantees. *)
Definition map_ok (m : omap) : Prop := StronglySorted sec_lt (keys m).
End OrderedMap.

Arguments omap V : clear implicits.

(* ================================================================== *)
(** ** The loader's data *)

(** A [MediaDecoder] object, a [LoadedImage] in GPU memory, a raw pixel
    buffer and a [ThreadSignal] are opaque to the loader; each is named by a
    number. *)
Definition Decoder : Type := nat.
Definition LoadedImage : Type := nat.
Definition ImageBuffer : Type := nat.
Definition ThreadSignal : Type := nat.

(** [MediaFrame]: the fields the loader reads. *)
Record MediaFrame : Type := mkFrame { time : Interval; image : ImageBuffer }.

(** [FrameLoader::Loaded].  A stored [shared_ptr<LoadedImage>] may be null
    ([None]).  frame_loader.cpp calls the interval set [done]. *)
Record Loaded : Type := mkLoaded {
  frames : omap (option LoadedImage);
  done : IntervalSet;
  eof : option Seconds
}.

(** Calls of [ThreadSignal::set()] made by the loader, kept as a history. *)
Inductive Event : Type :=
| WakeupSet
| NotifySet (s : ThreadSignal).

(** The members of [ThreadFrameLoader] guarded by [mutex], the state of the
    [wakeup] signal, and the history of [set()] calls (latest first). *)
Record Loader : Type := mkLoader {
  wanted : IntervalSet;
  notify : option ThreadSignal;
  load : Loaded;
  shutdown : bool;
  wakeup : bool;
  events : list Event
}.

Definition set_notify (n : option ThreadSignal) (st : Loader) : Loader :=
  mkLoader (wanted st) n (load st) (shutdown st) (wakeup st) (events st).

Definition set_wanted (w : IntervalSet) (st : Loader) : Loader :=
  mkLoader w (notify st) (load st) (shutdown st) (wakeup st) (events st).

Definition set_load (ld : Loaded) (st : Loader) : Loader :=
  mkLoader (wanted st) (notify st) ld (shutdown st) (wakeup st) (events st).

Definition set_shutdown (st : Loader) : Loader :=
  mkLoader (wanted st) (notify st) (load st) true (wakeup st) (events st).

(** [wakeup->set()]. *)
Definition wakeup_set (st : Loader) : Loader :=
  mkLoader (wanted st) (notify st) (load st) (shutdown st) true
           (WakeupSet :: events st).

(** [wakeup->wait()] returning: the set state is consumed. *)
Definition wakeup_consume (st : Loader) : Loader :=
  mkLoader (wanted st) (notify st) (load st) (shutdown st) false (events st).

(** [notify->set()] on the caller's signal [s]. *)
Definition notify_set (s : ThreadSignal) (st : Loader) : Loader :=
  mkLoader (wanted st) (notify st) (load st) (shutdown st) (wakeup st)
           (NotifySet s :: events st).

Definition DecoderMap : Type := omap Decoder.

(* ================================================================== *)
(** ** set_request *)

(** One round of the loop over [to_erase] (lines 53-59). *)
Definition drop_interval (ld : Loaded) (e : Interval) : Loaded :=
  mkLoaded
    (erase_range (frames ld)
       (lower_bound (frames ld) (i_begin e))
       (lower_bound (frames ld) (i_end e)))
    (erase e (done ld))
    (eof ld).

(** [to_erase = load.done; to_erase.erase(wanted)] (lines 50-51). *)
Definition to_erase (w : IntervalSet) (ld : Loaded) : IntervalSet :=
  erase_set w (done ld).

(** [ThreadFrameLoader::set_request] (lines 36-65). *)
Definition set_request (w : IntervalSet) (n : option ThreadSignal)
    (st : Loader) : Loader :=
  let st := set_notify n st in
  if set_eqb w (wanted st) then st
  else
    let ld := fold_left drop_interval (to_erase w (load st)) (load st) in
    wakeup_set (set_wanted w (set_load ld st)).

(** [ThreadFrameLoader::loaded] (lines 67-70). *)
Definition loaded (st : Loader) : Loaded := load st.

(** [~ThreadFrameLoader] (lines 25-34), the thread being joinable. *)
Definition destructor (st : Loader) : Loader := wakeup_set (set_shutdown st).

(* ================================================================== *)
(** ** loader_thread *)

(** Lines 92-99: for every wanted interval, a decoder positioned exactly at
    its end moves from [decoders] to [keep_decoders]. *)
Definition keep_end_decoder (acc : DecoderMap * DecoderMap) (want : Interval)
    : DecoderMap * DecoderMap :=
  let (decoders, keep_decoders) := acc in
  let iter := find_key decoders (i_end want) in
  match nth_error decoders iter with
  | Some (pos, decoder) =>
      (erase_at decoders iter, map_insert pos decoder keep_decoders)
  | None => acc
  end.

Definition keep_end_decoders (wanted : IntervalSet) (decoders : DecoderMap)
    : DecoderMap * DecoderMap :=
  fold_left keep_end_decoder wanted (decoders, []).

(** Lines 102-104: requested, not loaded, not past EOF. *)
Definition compute_needed (st : Loader) : IntervalSet :=
  let needed := wanted st in
  let needed :=
    match eof (load st) with
    | Some e => erase (mkInterval e forever) needed
    | None => needed
    end in
  erase_set (done (load st)) needed.

(** Lines 127-136: the decoder to reuse for an interval starting at
    [need_begin], with the pool it is taken out of; [None] when the iterator
    ends up at [decoders.end()]. *)
Definition select_decoder (decoders : DecoderMap) (need_begin : Seconds)
    : option (Seconds * Decoder * DecoderMap) :=
  let iter := upper_bound decoders need_begin in
  let iter := if Nat.eqb iter 0 then iter else Nat.pred iter in
  match nth_error decoders iter with
  | Some (pos, decoder) => Some (pos, decoder, erase_at decoders iter)
  | None => None
  end.

(** What the decoder and the display driver answer during one unlocked
    decode step.  An answer is read only if the call is made; a call that
    throws, here and for the opener, throws a [std::runtime_error], the
    exception the worker catches. *)
Inductive NextFrame : Type :=
| Produces (f : MediaFrame)
| EndOfStream
| NextFrameThrows.

Record Answers : Type := mkAnswers {
  seek_before_throws : bool;
  next_frame : NextFrame;
  load_image : option LoadedImage   (* [None]: the driver throws *)
}.

(** Lines 154-177, run without the mutex: the locals [frame], [image] and
    [decoder_pos] once the try block is left, normally or through the
    handler of [std::runtime_error]. *)
Definition decode_step (need_begin decoder_pos : Seconds) (a : Answers)
    : option MediaFrame * option LoadedImage * Seconds :=
  let seeks := negb (sec_eqb need_begin decoder_pos) in
  if seeks && seek_before_throws a then (None, None, decoder_pos)
  else
    let decoder_pos := if seeks then need_begin else decoder_pos in
    match next_frame a with
    | NextFrameThrows => (None, None, decoder_pos)
    | EndOfStream => (None, None, decoder_pos)
    | Produces f =>
        match load_image a with
        | None => (Some f, None, decoder_pos)
        | Some img =>
            (Some f, Some img, sec_max decoder_pos (i_end (time f)))
        end
    end.

(** Lines 186-190: a new end of file at [need_begin]. *)
Definition eof_new (need_begin : Seconds) (st : Loader) : Loader :=
  let ld := mkLoaded (frames (load st)) (done (load st)) (Some need_begin) in
  let st := set_load ld st in
  set_wanted (erase (mkInterval need_begin forever) (wanted st)) st.

(** Lines 205 and 212-213. *)
Definition done_insert (i : Interval) (st : Loader) : Loader :=
  set_load
    (mkLoaded (frames (load st)) (insert i (done (load st))) (eof (load st)))
    st.

Definition frames_assign (k : Seconds) (img : option LoadedImage)
    (st : Loader) : Loader :=
  set_load
    (mkLoaded (assign k img (frames (load st))) (done (load st))
              (eof (load st)))
    st.

(** Lines 185-216, run with the mutex held again: the outcome of the decode
    step is checked against the loader's state, giving the new state and the
    new value of [changes].  [None]: [overlap] is [wanted.end()] where line
    200 dereferences it. *)
Definition classify (need_begin : Seconds) (frame : option MediaFrame)
    (img : option LoadedImage) (st : Loader) (changes : nat)
    : option (Loader * nat) :=
  match frame with
  | None =>
      match eof (load st) with
      | None => Some (eof_new need_begin st, S changes)
      | Some e =>
          if sec_ltb need_begin e
          then Some (eof_new need_begin st, S changes)
          else if sec_eqb need_begin e
          then Some (st, changes)       (* "EOF (same)" *)
          else Some (st, changes)       (* "EOF (after ...)": logged only *)
      end
  | Some f =>
      let overlap := overlap_begin (wanted st) need_begin in
      if Nat.eqb overlap (overlap_end (wanted st) (i_end (time f)))
      then Some (st, changes)
      else
        match deref (wanted st) overlap with
        | None => None
        | Some o =>
            if sec_ltb (i_begin (time f)) (i_begin o)
            then Some (done_insert (mkInterval (i_begin o) (i_end (time f))) st,
                       S changes)
            else Some (frames_assign (i_begin (time f)) img
                         (done_insert (time f) st),
                       S changes)
        end
  end.

(** Line 226: [if (changes && notify) notify->set()]. *)
Definition fire_notify (changes : nat) (st : Loader) : Loader :=
  match changes, notify st with
  | S _, Some s => notify_set s st
  | _, _ => st
  end.

(** Where the worker thread stands.  With the mutex held: at the loop test
    (line 88) or at the head of the loop over [needed] (line 123).  With the
    mutex released: parked in [wakeup->wait()] (line 117) or in the decode
    step for [need] (lines 157-183). *)
Inductive Phase : Type :=
| AtLoopTest
| Waiting
| AtNeed (needed : list Interval) (changes : nat) (keep_decoders : DecoderMap)
| Decoding (need : Interval) (needed : list Interval) (changes : nat)
    (keep_decoders : DecoderMap) (decoder_pos : Seconds) (decoder : Decoder)
| Ended.

Record System : Type := mkSystem {
  loader : Loader;
  decoders : DecoderMap;
  phase : Phase
}.

(** What happens next: a call from the owner's thread, or the worker moving
    on, possibly with an answer from outside.  The worker holds the mutex
    from its start until it first waits, so the first call comes after
    that. *)
Inductive Action : Type :=
| CallSetRequest (w : IntervalSet) (n : option ThreadSignal)
| CallDestructor
| Run
| Opener (r : option Decoder)     (* [None]: the opener throws *)
| Decode (a : Answers).

(** The mutex is free for a caller. *)
Definition mutex_free (p : Phase) : bool :=
  match p with
  | Waiting | Decoding _ _ _ _ _ _ | Ended => true
  | AtLoopTest | AtNeed _ _ _ => false
  end.

(** Lines 88-120: loop test and the start of a pass.  When the loop is
    left, [loader_thread] returns (lines 229-230) and its local map
    [decoders] goes with it: every decoder it held is destroyed. *)
Definition pass_start (sys : System) : System :=
  let st := loader sys in
  if shutdown st then mkSystem st [] Ended
  else
    let (decoders, keep_decoders) :=
      keep_end_decoders (wanted st) (decoders sys) in
    let needed := compute_needed st in
    if set_empty needed then mkSystem st keep_decoders Waiting
    else mkSystem st decoders (AtNeed needed O keep_decoders).

(** Lines 222-226: the end of a pass. *)
Definition pass_end (changes : nat) (keep_decoders : DecoderMap)
    (sys : System) : System :=
  mkSystem (fire_notify changes (loader sys)) keep_decoders AtLoopTest.

(** Lines 139-147: the pool has no decoder and the opener is called. *)
Definition open_decoder (r : option Decoder) (need : Interval)
    (needed : list Interval) (changes : nat) (keep_decoders : DecoderMap)
    (sys : System) : System :=
  match r with
  | Some decoder =>
      mkSystem (loader sys) (decoders sys)
        (Decoding need needed changes keep_decoders zero_seconds decoder)
  | None =>
      mkSystem (done_insert need (loader sys)) (decoders sys)
        (AtNeed needed (S changes) keep_decoders)
  end.

(** Lines 154-219: one decode step, its classification, and the decoder
    going back into [keep_decoders]. *)
Definition finish_decode (a : Answers) (need : Interval)
    (needed : list Interval) (changes : nat) (keep_decoders : DecoderMap)
    (decoder_pos : Seconds) (decoder : Decoder) (sys : System)
    : option System :=
  let '(frame, img, decoder_pos) :=
    decode_step (i_begin need) decoder_pos a in
  match classify (i_begin need) frame img (loader sys) changes with
  | None => None
  | Some (st, changes) =>
      Some (mkSystem st (decoders sys)
              (AtNeed needed changes
                 (map_insert decoder_pos decoder keep_decoders)))
  end.

(** One step of the whole loader; [None] when the action cannot happen in
    this state. *)
Definition step (act : Action) (sys : System) : option System :=
  match act, phase sys with
  | CallSetRequest w n, p =>
      if mutex_free p && negb (shutdown (loader sys))
      then Some (mkSystem (set_request w n (loader sys)) (decoders sys) p)
      else None
  | CallDestructor, p =>
      if mutex_free p && negb (shutdown (loader sys))
      then Some (mkSystem (destructor (loader sys)) (decoders sys) p)
      else None
  | Run, AtLoopTest => Some (pass_start sys)
  | Run, Waiting =>
      if wakeup (loader sys)
      then Some (mkSystem (wakeup_consume (loader sys)) (decoders sys)
                   AtLoopTest)
      else None
  | Run, AtNeed [] changes keep_decoders =>
      Some (pass_end changes keep_decoders sys)
  | Run, AtNeed (need :: needed) changes keep_decoders =>
      match select_decoder (decoders sys) (i_begin need) with
      | Some (pos, decoder, rest) =>
          Some (mkSystem (loader sys) rest
                  (Decoding need needed changes keep_decoders pos decoder))
      | None => None
      end
  | Opener r, AtNeed (need :: needed) changes keep_decoders =>
      match select_decoder (decoders sys) (i_begin need) with
      | Some _ => None
      | None => Some (open_decoder r need needed changes keep_decoders sys)
      end
  | Decode a, Decoding need needed changes keep_decoders pos decoder =>
      finish_decode a need needed changes keep_decoders pos decoder sys
  | _, _ => None
  end.

Fixpoint run (acts : list Action) (sys : System) : option System :=
  match acts with
  | [] => Some sys
  | act :: rest =>
      match step act sys with
      | Some sys' => run rest sys'
      | None => None
      end
  end.

(** The loader as [make_frame_loader] leaves it: nothing wanted, nothing
    loaded, the worker thread about to test its loop condition. *)
Definition initial_loader : Loader :=
  mkLoader [] None (mkLoaded [] [] None) false false [].

Definition initial : System := mkSystem initial_loader [] AtLoopTest.

Definition reachable (sys : System) : Prop :=
  exists acts, run acts initial = Some sys.

(* ================================================================== *)
(** ** Predicates used to state the properties *)

(** Stored intervals are never empty. *)
Definition all_nonempty (s : IntervalSet) : Prop := Forall nonempty s.

(** Two stored intervals in order, with room between them. *)
Definition gap (i j : Interval) : Prop := sec_lt (i_end i) (i_begin j).

(** "Canonical": ascending, "non-overlapping, non-adjacent", and "no
    interval is empty". *)
Definition canonical (s : IntervalSet) : Prop :=
  StronglySorted gap s /\ all_nonempty s.

(** The stored interval [i] reaches into [a, b). *)
Definition meets (i : Interval) (a b : Seconds) : Prop :=
  sec_lt a (i_end i) /\ sec_lt (i_begin i) b.

(** The representation of the cache is in order: [frames] has ascending
    keys and [done] is canonical. *)
Definition cache_ok (ld : Loaded) : Prop :=
  map_ok (frames ld) /\ canonical (done ld).

(** A test on map entries that, once true at a key, is true at every later
    key: the shape of the tests behind [lower_bound] and [upper_bound]. *)
Definition upward {V : Type} (p : Seconds * V -> bool) : Prop :=
  forall e1 e2, p e1 = true -> sec_lt (fst e1) (fst e2) -> p e2 = true.

(** The bounds the end of file puts on the cache: once [eof] is known, no
    frame key lies after it and [done] stays within [0, eof). *)
Definition eof_bounds (ld : Loaded) : Prop :=
  forall e, eof ld = Some e ->
    (forall k, In k (keys (frames ld)) -> sec_le k e) /\
    (forall t, covers (done ld) t -> sec_le zero_seconds t /\ sec_lt t e).

(** A frame of a stream that starts at zero and ends at [T]. *)
Definition within_stream (T : Seconds) (f : MediaFrame) : Prop :=
  sec_le zero_seconds (i_begin (time f)) /\
  sec_le (i_begin (time f)) (i_end (time f)) /\
  sec_le (i_end (time f)) T.

(** The decoder answers like a stream ending at [T]: it does not throw, its
    frames lie within the stream, and it reports the end of the stream only
    when asked at or after [T]. *)
Definition orderly_answers (T need_begin : Seconds) (a : Answers) : Prop :=
  seek_before_throws a = false /\
  match next_frame a with
  | Produces f => within_stream T f
  | EndOfStream => sec_le T need_begin
  | NextFrameThrows => False
  end.

Definition orderly (T : Seconds) (act : Action) (sys : System) : Prop :=
  match act, phase sys with
  | Opener None, _ => False
  | Decode a, Decoding need _ _ _ _ _ => orderly_answers T (i_begin need) a
  | _, _ => True
  end.

Fixpoint orderly_run (T : Seconds) (acts : list Action) (sys : System)
    : Prop :=
  match acts with
  | [] => True
  | act :: rest =>
      orderly T act sys /\
      match step act sys with
      | Some sys' => orderly_run T rest sys'
      | None => True
      end
  end.

(** What holds of the cache all along such a stream. *)
Definition stream_bounds (T : Seconds) (ld : Loaded) : Prop :=
  (forall k, In k (keys (frames ld)) -> sec_le k T) /\
  (forall t, covers (done ld) t -> sec_le zero_seconds t /\ sec_lt t T) /\
  (forall e, eof ld = Some e -> sec_le T e).

(** The caller's signals set so far, and the number of wakeups. *)
Definition caller_signals (evs : list Event) : list ThreadSignal :=
  flat_map (fun e => match e with NotifySet s => [s] | WakeupSet => [] end)
           evs.

Definition wakeups (evs : list Event) : nat :=
  length (filter (fun e => match e with WakeupSet => true | _ => false end)
                 evs).

Definition is_set_request (act : Action) : bool :=
  match act with CallSetRequest _ _ => true | _ => false end.

(** Finite intervals and frames, for examples. *)
Definition span (a b : Z) : Interval := mkInterval (Fin a) (Fin b).

Definition frame_at (a b : Z) : NextFrame := Produces (mkFrame (span a b) 0%nat).

(** A run that loads the frame [5, 6), widens the request to [0, 6) and
    then meets a decode failure at 0. *)
Definition failure_below_frames : list Action :=
  [ Run; CallSetRequest [span 5 6] (Some 7%nat); Run; Run;
    Opener (Some 1%nat); Decode (mkAnswers false (frame_at 5 6) (Some 100%nat));
    Run; Run;
    CallSetRequest [span 0 6] (Some 7%nat); Run; Run;
    Opener (Some 2%nat); Decode (mkAnswers false NextFrameThrows None) ].

(** A run over a stream of two frames ending at 2. *)
Definition two_frame_stream : list Action :=
  [ Run; CallSetRequest [span 0 3] None; Run; Run;
    Opener (Some 1%nat); Decode (mkAnswers false (frame_at 0 1) (Some 100%nat));
    Run; Run; Run;
    Decode (mkAnswers false (frame_at 1 2) (Some 101%nat));
    Run; Run; Run;
    Decode (mkAnswers false EndOfStream None) ].

(** A run whose only decode step gets the frame [0, 1) and then sees
    [load_image] throw. *)
Definition upload_failure : list Action :=
  [ Run; CallSetRequest [span 0 10] None; Run; Run;
    Opener (Some 1%nat); Decode (mkAnswers false (frame_at 0 1) None) ].

(** The same run with [next_frame] throwing instead. *)
Definition decode_failure : list Action :=
  [ Run; CallSetRequest [span 0 10] None; Run; Run;
    Opener (Some 1%nat); Decode (mkAnswers false NextFrameThrows None) ].

(** A run in which the decoder hands out a frame of no duration at 5; the
    worker ends up in its next decode step. *)
Definition empty_frame_stored : list Action :=
  [ Run; CallSetRequest [span 0 10] None; Run; Run;
    Opener (Some 1%nat); Decode (mkAnswers false (frame_at 5 5) (Some 100%nat));
    Run; Run; Run ].

(** The state that run ends in. *)
Definition after_two_frames : System :=
  Eval vm_compute in
    match run two_frame_stream initial with
    | Some sys => sys
    | None => initial
    end.

(* ================================================================== *)
(** ** More predicates, for the properties beyond the claims *)

(** The decoder hands out only frames that last: [time.begin < time.end]. *)
Definition lasting_frames (act : Action) : Prop :=
  match act with
  | Decode a =>
      match next_frame a with
      | Produces f => nonempty (time f)
      | _ => True
      end
  | _ => True
  end.

(** Every key of [frames] lies in some interval of [done]. *)
Definition keys_in_done (ld : Loaded) : Prop :=
  forall k, In k (keys (frames ld)) -> covers (done ld) k.

(** No caller takes part: the worker runs on its own. *)
Definition worker_only (acts : list Action) : bool :=
  forallb (fun a => match a with
                    | CallSetRequest _ _ | CallDestructor => false
                    | _ => true
                    end) acts.

(** The same system with the [shutdown] flag as given. *)
Definition with_shutdown (b : bool) (sys : System) : System :=
  mkSystem
    (mkLoader (wanted (loader sys)) (notify (loader sys)) (load (loader sys))
       b (wakeup (loader sys)) (events (loader sys)))
    (decoders sys) (phase sys).

(** A run up to the decode step for [0, 1) under the request
    {[0, 1), [5, 6)}, the new decoder standing at 0. *)
Definition up_to_decode_of_two_spans : list Action :=
  [ Run; CallSetRequest [span 0 1; span 5 6] None; Run; Run;
    Opener (Some 1%nat) ].

(** A run up to the decode step for [0, 2) under the request
    {[0, 2), [5, 9)}, the new decoder standing at 0. *)
Definition up_to_decode_of_late_span : list Action :=
  [ Run; CallSetRequest [span 0 2; span 5 9] None; Run; Run;
    Opener (Some 1%nat) ].

(** The stored interval [i] and the frame time [ft] share an instant. *)
Definition intersects (i ft : Interval) : Prop :=
  exists t, contains i t /\ contains ft t.

(* ================================================================== *)
(** ** Text: debugging descriptions and the choice of a device *)

Module Text.
Import String.
Local Open Scope string_scope.

Section Debug.

(** [debug(Seconds)], declared with [Seconds] outside the sources at hand,
    is taken as it comes. *)
Variable debug_seconds : Seconds -> string.

(** [debug(Interval<Seconds> const&)] (frame_loader.cpp, lines 262-264):
    [fmt::format("{}~{}", ...)]. *)
Definition debug_interval (i : Interval) : string :=
  debug_seconds (i_begin i) ++ "~" ++ debug_seconds (i_end i).

(** One round of the loop of lines 268-271. *)
Definition debug_append (out : string) (i : Interval) : string :=
  let out := if Nat.ltb 1 (length out) then out ++ ", " else out in
  out ++ debug_interval i.

(** [debug(IntervalSet<Seconds> const&)] (lines 266-273). *)
Definition debug_set (s : IntervalSet) : string :=
  fold_left debug_append s "{" ++ "}".

End Debug.

(** [DisplayDriverListing] (display_output.h, lines 85-92). *)
Record DisplayDriverListing : Type := mkListing {
  dev_file : string;
  system_path : string;
  driver : string;
  driver_date : string;
  driver_desc : string;
  driver_bus_id : string
}.

(** [text.find(needle) != std::string::npos]. *)
Definition found_in (needle text : string) : bool :=
  match index 0 needle text with
  | Some _ => true
  | None => false
  end.

(** [s.empty()]. *)
Definition is_empty (s : string) : bool :=
  match s with
  | EmptyString => true
  | String _ _ => false
  end.

Section FindDriver.

(** [debug(DisplayDriverListing const&)], declared in display_output.h and
    defined outside the sources at hand, is taken as it comes. *)
Variable debug_listing : DisplayDriverListing -> string.

(** One round of the loop of pivid_play.cpp, lines 38-43, on [found];
    what is printed is left out. *)
Definition find_driver_round (dev_arg : string)
    (found : option DisplayDriverListing) (d : DisplayDriverListing)
    : option DisplayDriverListing :=
  let text := debug_listing d in
  match found with
  | None => if found_in dev_arg text then Some d else found
  | Some _ => found
  end.

(** [find_driver] (pivid_play.cpp, lines 35-48) over the listings that
    [list_display_drivers] returned: the message of the exception thrown,
    or the [dev_file] that [open_display_driver] is called with. *)
Definition find_driver (dev_arg : string)
    (listings : list DisplayDriverListing) : string + string :=
  match fold_left (find_driver_round dev_arg) listings None with
  | None => inl "No matching device"
  | Some d => inr (dev_file d)
  end.

End FindDriver.

(** The test of pivid_test_playback.cpp, lines 43-46. *)
Definition names_device (dev_arg : string) (d : DisplayDriverListing)
    : bool :=
  found_in dev_arg (dev_file d) || found_in dev_arg (system_path d) ||
  found_in dev_arg (driver d) || found_in dev_arg (driver_bus_id d).

(** One round of the loop of pivid_test_playback.cpp, lines 40-55, on the
    local [dev_file]. *)
Definition pick_device_round (dev_arg : string) (chosen : string)
    (d : DisplayDriverListing) : string :=
  if is_empty chosen && names_device dev_arg d then dev_file d else chosen.

(** Lines 39-59 of pivid_test_playback.cpp: the message of the exception
    thrown, or the [dev_file] that [open_display_driver] is called with. *)
Definition pick_device (dev_arg : string)
    (listings : list DisplayDriverListing) : string + string :=
  let chosen := fold_left (pick_device_round dev_arg) listings "" in
  if is_empty chosen then inl "No matching device" else inr chosen.

End Text.

(* ================================================================== *)
(** * Properties *)

(** ** Comparisons on [Seconds] *)

Lemma sec_ltb_spec a b : reflect (sec_lt a b) (sec_ltb a b).
Proof.
  destruct a as [x|], b as [y|]; simpl; try (constructor; tauto).
  destruct (Z.ltb_spec0 x y); constructor; lia.
Qed.

Lemma sec_leb_spec a b : reflect (sec_le a b) (sec_leb a b).
Proof.
  unfold sec_leb.
  destruct a as [x|], b as [y|]; simpl; try (constructor; tauto).
  destruct (Z.ltb_spec0 y x); constructor; simpl; lia.
Qed.

Lemma sec_eqb_spec a b : reflect (a = b) (sec_eqb a b).
Proof.
  destruct a as [x|], b as [y|]; simpl; try (constructor; congruence).
  destruct (Z.eqb_spec x y); constructor; congruence.
Qed.

(** Case analysis on every comparison in sight, then linear arithmetic. *)
Ltac sec_reflect :=
  repeat match goal with
  | |- context [sec_ltb ?a ?b] => destruct (sec_ltb_spec a b)
  | |- context [sec_leb ?a ?b] => destruct (sec_leb_spec a b)
  | |- context [sec_eqb ?a ?b] => destruct (sec_eqb_spec a b)
  | H : context [sec_ltb ?a ?b] |- _ => destruct (sec_ltb_spec a b)
  | H : context [sec_leb ?a ?b] |- _ => destruct (sec_leb_spec a b)
  | H : context [sec_eqb ?a ?b] |- _ => destruct (sec_eqb_spec a b)
  end.

Ltac sec_split :=
  repeat match goal with
  | x : Seconds |- _ => destruct x
  | i : Interval |- _ => destruct i
  end.

Ltac sec_unequal :=
  repeat match goal with
  | H : Fin ?a <> Fin ?b |- _ =>
      assert (a <> b) by (let E := fresh in intro E; apply H; congruence);
      clear H
  end.

Ltac sec_arith :=
  unfold contains, nonempty, containsb, nonemptyb, sec_max, sec_min in *;
  simpl in *; sec_reflect; subst;
  unfold sec_lt, sec_le in *; sec_split; simpl in *; sec_unequal;
  try discriminate; try tauto; try congruence; try lia;
  try (f_equal; lia).

Lemma sec_lt_trans a b c : sec_lt a b -> sec_lt b c -> sec_lt a c.
Proof. sec_arith. Qed.

Lemma sec_le_lt_trans a b c : sec_le a b -> sec_lt b c -> sec_lt a c.
Proof. sec_arith. Qed.

Lemma sec_lt_le_trans a b c : sec_lt a b -> sec_le b c -> sec_lt a c.
Proof. sec_arith. Qed.

Lemma sec_lt_le a b : sec_lt a b -> sec_le a b.
Proof. sec_arith. Qed.

Lemma sec_lt_irrefl a : ~ sec_lt a a.
Proof. sec_arith. Qed.

Lemma sec_le_refl a : sec_le a a.
Proof. sec_arith. Qed.

Lemma sec_lt_not_le a b : sec_lt a b -> ~ sec_le b a.
Proof. sec_arith. Qed.

Lemma sec_le_or_lt a b : sec_le a b \/ sec_lt b a.
Proof. sec_arith. Qed.

(** ** Interval sets: what a set covers after [erase] and [insert] *)

Example insert_coalesces_adjacent :
  insert (span 3 5) [span 0 3; span 5 8; span 10 12]
    = [span 0 8; span 10 12].
Proof. reflexivity. Qed.

Example insert_ignores_empty :
  insert (span 5 5) [span 0 3] = [span 0 3].
Proof. reflexivity. Qed.

Example erase_splits :
  erase (span 3 5) [span 0 8; span 10 12]
    = [span 0 3; span 5 8; span 10 12].
Proof. reflexivity. Qed.

Example erase_to_forever :
  erase (mkInterval (Fin 11) forever) [span 0 8; span 10 12]
    = [span 0 8; span 10 11].
Proof. reflexivity. Qed.

Example erase_set_difference :
  erase_set [span 0 1; span 3 11] [span 0 8; span 10 12]
    = [span 1 3; span 11 12].
Proof. reflexivity. Qed.

Example overlap_positions :
  overlap_begin [span 0 1; span 2 3; span 5 6] (Fin 1) = 1%nat /\
  overlap_end [span 0 1; span 2 3; span 5 6] (Fin 5) = 2%nat /\
  overlap_end [span 0 1; span 2 3; span 5 6] (Fin 7) = 3%nat.
Proof. repeat split. Qed.

Lemma containsb_spec i t : reflect (contains i t) (containsb i t).
Proof.
  unfold contains, containsb.
  destruct (sec_leb_spec (i_begin i) t), (sec_ltb_spec t (i_end i));
    constructor; tauto.
Qed.

Lemma nonemptyb_spec i : reflect (nonempty i) (nonemptyb i).
Proof. apply sec_ltb_spec. Qed.

Lemma contains_nonempty i t : contains i t -> nonempty i.
Proof. sec_arith. Qed.

Lemma coversb_spec s t : reflect (covers s t) (coversb s t).
Proof.
  unfold covers, coversb.
  destruct (existsb (fun i => containsb i t) s) eqn:E; constructor.
  - apply existsb_exists in E. destruct E as (i & Hin & Hc).
    exists i. split; [assumption|].
    destruct (containsb_spec i t); [assumption | discriminate].
  - intros (i & Hin & Hc).
    assert (existsb (fun i => containsb i t) s = true) as E'.
    { apply existsb_exists. exists i. split; [assumption|].
      destruct (containsb_spec i t); [reflexivity | contradiction]. }
    congruence.
Qed.

Lemma covers_dec s t : covers s t \/ ~ covers s t.
Proof. destruct (coversb_spec s t); tauto. Qed.

Lemma covers_nil t : ~ covers [] t.
Proof. intros (i & [] & _). Qed.

Lemma covers_cons i s t : covers (i :: s) t <-> contains i t \/ covers s t.
Proof.
  unfold covers; split.
  - intros (j & [-> | Hin] & Hc); [left; assumption | right; eauto].
  - intros [Hc | (j & Hin & Hc)]; [exists i | exists j]; simpl; auto.
Qed.

Lemma covers_app s1 s2 t : covers (s1 ++ s2) t <-> covers s1 t \/ covers s2 t.
Proof.
  induction s1 as [|i s1 IH]; simpl.
  - split; [auto | intros [H | H]; [destruct (covers_nil _ H) | assumption]].
  - rewrite !covers_cons, IH. tauto.
Qed.

Lemma covers_if (b : bool) x t :
  covers (if b then [x] else []) t <-> b = true /\ contains x t.
Proof.
  destruct b.
  - rewrite covers_cons. pose proof (covers_nil t). tauto.
  - pose proof (covers_nil t). split; [tauto | intros [? _]; discriminate].
Qed.

Ltac sec_crush :=
  sec_arith; intuition (try discriminate; try congruence; try lia).

Lemma cut_interval_covers cut j t :
  covers (cut_interval cut j) t <-> contains j t /\ ~ contains cut t.
Proof.
  unfold cut_interval. rewrite covers_app, !covers_if.
  sec_crush.
Qed.

Lemma covers_flat_map (f : Interval -> list Interval) s t :
  covers (flat_map f s) t <-> exists j, In j s /\ covers (f j) t.
Proof.
  induction s as [|i s IH]; simpl.
  - split; [intros H; destruct (covers_nil _ H) | intros (j & [] & _)].
  - rewrite covers_app, IH. split.
    + intros [H | (j & Hin & H)]; eauto.
    + intros (j & [-> | Hin] & H); eauto.
Qed.

Lemma covers_erase cut s t :
  covers (erase cut s) t <-> covers s t /\ ~ contains cut t.
Proof.
  unfold erase. destruct (nonemptyb_spec cut) as [Hne | Hempty].
  - rewrite covers_flat_map. split.
    + intros (j & Hin & H). apply cut_interval_covers in H.
      split; [exists j; tauto | tauto].
    + intros [(j & Hin & Hc) Hcut]. exists j. split; [assumption|].
      apply cut_interval_covers. tauto.
  - split; [|tauto]. intros H. split; [assumption|].
    intros Hc. apply Hempty. eapply contains_nonempty; eassumption.
Qed.

Lemma covers_erase_set cuts s t :
  covers (erase_set cuts s) t <-> covers s t /\ ~ covers cuts t.
Proof.
  unfold erase_set. revert s.
  induction cuts as [|c cuts IH]; intros s; simpl.
  - pose proof (covers_nil t). tauto.
  - rewrite IH, covers_erase, covers_cons. tauto.
Qed.

Lemma hull_contains i j t :
  nonempty i ->
  ~ sec_lt (i_end j) (i_begin i) -> ~ sec_lt (i_end i) (i_begin j) ->
  (contains (hull i j) t <-> contains i t \/ contains j t).
Proof. unfold hull. sec_crush. Qed.

Lemma hull_nonempty i j : nonempty i -> nonempty (hull i j).
Proof. unfold hull. sec_crush. Qed.

Lemma covers_insert_nonempty s : forall i t,
  nonempty i ->
  (covers (insert_nonempty i s) t <-> contains i t \/ covers s t).
Proof.
  induction s as [|j s IH]; intros i t Hne; simpl.
  - rewrite covers_cons. pose proof (covers_nil t). tauto.
  - destruct (sec_ltb_spec (i_end j) (i_begin i)) as [Hlt | Hge].
    + rewrite !covers_cons, IH by assumption. tauto.
    + destruct (sec_ltb_spec (i_end i) (i_begin j)) as [Hlt' | Hge'].
      * rewrite !covers_cons. tauto.
      * rewrite IH by (apply hull_nonempty; assumption).
        rewrite covers_cons, hull_contains by assumption. tauto.
Qed.

Lemma covers_insert i s t :
  covers (insert i s) t <-> contains i t \/ covers s t.
Proof.
  unfold insert. destruct (nonemptyb_spec i) as [Hne | Hempty].
  - apply covers_insert_nonempty. assumption.
  - split; [tauto|]. intros [Hc | H]; [|assumption].
    destruct Hempty. eapply contains_nonempty; eassumption.
Qed.

Lemma cut_interval_nonempty cut j : all_nonempty (cut_interval cut j).
Proof.
  unfold cut_interval, all_nonempty.
  apply Forall_app; split;
    match goal with
    | |- Forall _ (if nonemptyb ?x then _ else _) =>
        destruct (nonemptyb_spec x); constructor; auto
    end.
Qed.

Lemma erase_nonempty cut s : all_nonempty s -> all_nonempty (erase cut s).
Proof.
  unfold erase, all_nonempty. intros H.
  destruct (nonemptyb cut); [|assumption].
  clear H. induction s as [|j s IH]; simpl; [constructor|].
  apply Forall_app; split; [apply cut_interval_nonempty | assumption].
Qed.

Lemma erase_set_nonempty cuts s :
  all_nonempty s -> all_nonempty (erase_set cuts s).
Proof.
  unfold erase_set. revert s.
  induction cuts as [|c cuts IH]; intros s H; simpl; [assumption|].
  apply IH, erase_nonempty, H.
Qed.

Lemma insert_nonempty_nonempty s : forall i,
  nonempty i -> all_nonempty s -> all_nonempty (insert_nonempty i s).
Proof.
  unfold all_nonempty.
  induction s as [|j s IH]; intros i Hi Hs; simpl.
  - constructor; [assumption | constructor].
  - inversion Hs as [|? ? Hj Hs']; subst.
    destruct (sec_ltb (i_end j) (i_begin i)).
    + constructor; [assumption | apply IH; assumption].
    + destruct (sec_ltb (i_end i) (i_begin j)).
      * constructor; assumption.
      * apply IH; [apply hull_nonempty; assumption | assumption].
Qed.

Lemma insert_keeps_nonempty i s : all_nonempty s -> all_nonempty (insert i s).
Proof.
  unfold insert. intros H. destruct (nonemptyb_spec i); [|assumption].
  apply insert_nonempty_nonempty; assumption.
Qed.

(** ** Interval sets stay canonical *)

Lemma sorted_app_inv (A : Type) (R : A -> A -> Prop) (l1 l2 : list A) :
  StronglySorted R (l1 ++ l2) ->
  StronglySorted R l1 /\ StronglySorted R l2 /\
  (forall x y, In x l1 -> In y l2 -> R x y).
Proof.
  induction l1 as [|a l1 IH]; simpl; intros H.
  - repeat split; [constructor | assumption | intros ? ? []].
  - apply StronglySorted_inv in H. destruct H as [Hs Hall].
    destruct (IH Hs) as (H1 & H2 & H12).
    rewrite Forall_app in Hall. destruct Hall as [Ha1 Ha2].
    repeat split; [constructor; assumption | assumption |].
    intros x y [<- | Hx] Hy; [|auto].
    rewrite Forall_forall in Ha2. auto.
Qed.

Lemma sorted_app (A : Type) (R : A -> A -> Prop) (l1 l2 : list A) :
  StronglySorted R l1 -> StronglySorted R l2 ->
  (forall x y, In x l1 -> In y l2 -> R x y) ->
  StronglySorted R (l1 ++ l2).
Proof.
  induction l1 as [|a l1 IH]; simpl; intros H1 H2 H12; [assumption|].
  apply StronglySorted_inv in H1. destruct H1 as [Hs Hall].
  constructor.
  - apply IH; auto.
  - apply Forall_app; split; [assumption|].
    apply Forall_forall. intros y Hy. apply H12; auto.
Qed.

Lemma canonical_nil : canonical [].
Proof. split; constructor. Qed.

Lemma canonical_cons_inv j s :
  canonical (j :: s) ->
  nonempty j /\ canonical s /\ (forall i, In i s -> gap j i).
Proof.
  intros [Hs Hne]. apply StronglySorted_inv in Hs. destruct Hs as [Hs Hall].
  inversion Hne as [|? ? Hj Hne']; subst.
  rewrite Forall_forall in Hall. repeat split; assumption.
Qed.

Lemma canonical_cons j s :
  nonempty j -> canonical s -> (forall i, In i s -> gap j i) ->
  canonical (j :: s).
Proof.
  intros Hj [Hs Hne] Hgap. split.
  - constructor; [assumption | apply Forall_forall, Hgap].
  - constructor; assumption.
Qed.

Lemma cut_interval_sorted cut j :
  nonempty cut -> StronglySorted gap (cut_interval cut j).
Proof.
  intros Hc. unfold cut_interval.
  repeat match goal with
  | |- context [if nonemptyb ?x then _ else _] =>
      destruct (nonemptyb_spec x)
  end; simpl; repeat constructor.
  unfold gap. simpl. clear - Hc. sec_arith.
Qed.

Lemma cut_interval_within cut j p :
  In p (cut_interval cut j) ->
  sec_le (i_begin j) (i_begin p) /\ sec_le (i_end p) (i_end j).
Proof.
  unfold cut_interval. intros H. apply in_app_or in H.
  destruct H as [H | H];
    match type of H with
    | In _ (if ?b then _ else _) => destruct b; [|destruct H]
    end;
    destruct H as [<- | []]; simpl; sec_crush.
Qed.

Lemma erase_canonical cut s : canonical s -> canonical (erase cut s).
Proof.
  intros Hs. split; [|apply erase_nonempty, Hs].
  unfold erase. destruct (nonemptyb_spec cut) as [Hc | _]; [|apply Hs].
  induction s as [|j s IH]; simpl; [constructor|].
  apply canonical_cons_inv in Hs. destruct Hs as (Hj & Hs & Hgap).
  apply sorted_app; [apply cut_interval_sorted, Hc | apply IH, Hs |].
  intros x y Hx Hy. apply in_flat_map in Hy. destruct Hy as (i & Hi & Hy).
  apply cut_interval_within in Hx. apply cut_interval_within in Hy.
  specialize (Hgap i Hi). unfold gap in *.
  clear - Hx Hy Hgap. sec_crush.
Qed.

Lemma erase_set_canonical cuts s :
  canonical s -> canonical (erase_set cuts s).
Proof.
  unfold erase_set. revert s.
  induction cuts as [|c cuts IH]; intros s H; simpl; [assumption|].
  apply IH, erase_canonical, H.
Qed.

Lemma insert_nonempty_after lo s : forall i,
  sec_lt lo (i_begin i) ->
  (forall x, In x s -> sec_lt lo (i_begin x)) ->
  forall x, In x (insert_nonempty i s) -> sec_lt lo (i_begin x).
Proof.
  induction s as [|j s IH]; intros i Hi Hs x; simpl.
  - intros [<- | []]. assumption.
  - destruct (sec_ltb (i_end j) (i_begin i)).
    + intros [<- | Hx]; [apply Hs; simpl; auto|].
      apply (IH i); auto. intros y Hy. apply Hs. simpl. auto.
    + destruct (sec_ltb (i_end i) (i_begin j)).
      * intros [<- | Hx]; [assumption | apply Hs, Hx].
      * apply IH.
        -- specialize (Hs j (or_introl eq_refl)). unfold hull. simpl.
           clear - Hi Hs. sec_arith.
        -- intros y Hy. apply Hs. simpl. auto.
Qed.

Lemma insert_nonempty_canonical s : forall i,
  nonempty i -> canonical s -> canonical (insert_nonempty i s).
Proof.
  induction s as [|j s IH]; intros i Hi Hs; simpl.
  - apply canonical_cons; [assumption | apply canonical_nil | intros ? []].
  - apply canonical_cons_inv in Hs. destruct Hs as (Hj & Hs & Hgap).
    destruct (sec_ltb_spec (i_end j) (i_begin i)) as [Hji | Hnji].
    + apply canonical_cons; [assumption | apply IH; assumption |].
      intros x Hx. unfold gap.
      eapply insert_nonempty_after; [exact Hji | exact Hgap | exact Hx].
    + destruct (sec_ltb_spec (i_end i) (i_begin j)) as [Hij | Hnij].
      * apply canonical_cons; [assumption | |].
        -- apply canonical_cons; assumption.
        -- intros x [<- | Hx]; [exact Hij|].
           specialize (Hgap x Hx). unfold gap in *.
           clear - Hij Hj Hgap. sec_arith.
      * apply IH; [apply hull_nonempty; assumption | assumption].
Qed.

Lemma insert_canonical i s : canonical s -> canonical (insert i s).
Proof.
  unfold insert. intros H. destruct (nonemptyb_spec i); [|assumption].
  apply insert_nonempty_canonical; assumption.
Qed.

(** ** When [overlap_begin] and [overlap_end] coincide *)

Lemma meets_common_point i a b :
  nonempty i -> sec_lt a b ->
  (meets i a b <->
   exists t, contains i t /\ contains (mkInterval a b) t).
Proof.
  intros Hi Hab. unfold meets. split.
  - intros [H1 H2]. exists (sec_max (i_begin i) a).
    clear - Hi Hab H1 H2. sec_crush.
  - intros (t & Hc1 & Hc2). clear - Hc1 Hc2. sec_crush.
Qed.

Lemma overlap_range_empty s a b :
  canonical s -> sec_lt a b ->
  (overlap_begin s a = overlap_end s b <->
   forall i, In i s -> ~ meets i a b).
Proof.
  intros Hs Hab. unfold overlap_begin, overlap_end.
  induction s as [|j s IH]; simpl.
  - split; [intros _ ? [] | reflexivity].
  - apply canonical_cons_inv in Hs. destruct Hs as (Hj & Hs & Hgap).
    specialize (IH Hs).
    destruct (sec_ltb_spec a (i_end j)) as [Haj | Haj];
      destruct (sec_leb_spec b (i_begin j)) as [Hbj | Hbj].
    + split; [|reflexivity]. intros _ i [<- | Hi].
      * unfold meets. clear - Hbj. sec_arith.
      * specialize (Hgap i Hi). unfold meets, gap in *.
        clear - Hbj Hj Hgap. sec_arith.
    + split; [discriminate|]. intros H.
      destruct (H j (or_introl eq_refl)). unfold meets.
      clear - Haj Hbj. sec_arith.
    + exfalso. clear - Hab Hj Haj Hbj. sec_arith.
    + split.
      * intros [= E]. intros i [<- | Hi]; [|apply IH; assumption].
        unfold meets. clear - Haj. sec_arith.
      * intros H. f_equal. apply IH. intros i Hi. apply H. simpl. auto.
Qed.

(** ** Ordered maps: positions found by [lower_bound] and [upper_bound] *)

Section OrderedMapFacts.
Context {V : Type}.
Implicit Types (m : omap V) (e : Seconds * V).

Lemma first_index_split (p : Seconds * V -> bool) m :
  upward p -> map_ok m ->
  exists l1 l2,
    m = l1 ++ l2 /\ length l1 = first_index p m /\
    (forall e, In e l1 -> p e = false) /\
    (forall e, In e l2 -> p e = true).
Proof.
  intros Hup. unfold map_ok, keys.
  induction m as [|e m IH]; simpl; intros Hs.
  - exists [], []. repeat split; intros ? [].
  - apply StronglySorted_inv in Hs. destruct Hs as [Hs Hall].
    destruct (p e) eqn:Hp.
    + exists [], (e :: m). repeat split; [intros ? [] |].
      intros e' [<- | Hin]; [assumption|].
      apply (Hup e e' Hp).
      rewrite Forall_forall in Hall. apply Hall, in_map, Hin.
    + destruct (IH Hs) as (l1 & l2 & -> & Hlen & Hl1 & Hl2).
      exists (e :: l1), l2. simpl. repeat split; auto.
      intros e' [<- | Hin]; auto.
Qed.

Lemma lower_bound_upward k :
  upward (fun e : Seconds * V => sec_leb k (fst e)).
Proof. intros [k1 v1] [k2 v2]; simpl. sec_arith. Qed.

Lemma upper_bound_upward k :
  upward (fun e : Seconds * V => sec_ltb k (fst e)).
Proof. intros [k1 v1] [k2 v2]; simpl. sec_arith. Qed.

Lemma firstn_length_app (A : Type) (l1 l2 : list A) :
  firstn (length l1) (l1 ++ l2) = l1.
Proof. induction l1; simpl; congruence. Qed.

Lemma skipn_length_app (A : Type) (l1 l2 : list A) :
  skipn (length l1) (l1 ++ l2) = l2.
Proof. induction l1; simpl; congruence. Qed.

(** The entries left by [m.erase(m.lower_bound(a), m.lower_bound(b))] are
    those whose key is outside [a, b). *)
Lemma erase_range_lower_bounds m a b e :
  map_ok m ->
  (In e (erase_range m (lower_bound m a) (lower_bound m b)) <->
   In e m /\ ~ contains (mkInterval a b) (fst e)).
Proof.
  intros Hok. unfold erase_range, lower_bound.
  destruct (first_index_split _ m (lower_bound_upward a) Hok)
    as (l1 & l2 & E1 & Hlen1 & Hl1 & Hl2).
  destruct (first_index_split _ m (lower_bound_upward b) Hok)
    as (l3 & l4 & E2 & Hlen2 & Hl3 & Hl4).
  rewrite <- Hlen1, <- Hlen2.
  rewrite E1 at 1. rewrite firstn_length_app.
  rewrite E2 at 1. rewrite skipn_length_app.
  rewrite in_app_iff. split.
  - intros [Hin | Hin].
    + split; [rewrite E1; apply in_or_app; auto|].
      specialize (Hl1 _ Hin). simpl in Hl1. destruct e; sec_arith.
    + split; [rewrite E2; apply in_or_app; auto|].
      specialize (Hl4 _ Hin). simpl in Hl4. destruct e; sec_arith.
  - intros [Hin Hout].
    assert (In e l1 \/ In e l2) as [H1 | H2]
      by (apply in_app_or; rewrite <- E1; assumption); [auto|].
    assert (In e l3 \/ In e l4) as [H3 | H4]
      by (apply in_app_or; rewrite <- E2; assumption); [|auto].
    specialize (Hl2 _ H2). specialize (Hl3 _ H3). simpl in *.
    destruct e; sec_arith.
Qed.

Lemma erase_range_lower_bounds_ok m a b :
  map_ok m -> sec_le a b ->
  map_ok (erase_range m (lower_bound m a) (lower_bound m b)).
Proof.
  intros Hok Hab. unfold erase_range, lower_bound.
  destruct (first_index_split _ m (lower_bound_upward a) Hok)
    as (l1 & l2 & E1 & Hlen1 & Hl1 & Hl2).
  destruct (first_index_split _ m (lower_bound_upward b) Hok)
    as (l3 & l4 & E2 & Hlen2 & Hl3 & Hl4).
  rewrite <- Hlen1, <- Hlen2.
  rewrite E1 at 1. rewrite firstn_length_app.
  rewrite E2 at 1. rewrite skipn_length_app.
  unfold map_ok, keys in *. rewrite map_app.
  pose proof Hok as Hok'.
  rewrite E1, map_app in Hok. apply sorted_app_inv in Hok.
  rewrite E2, map_app in Hok'. apply sorted_app_inv in Hok'.
  apply sorted_app; [tauto | tauto |].
  intros x y Hx Hy.
  apply in_map_iff in Hx. destruct Hx as ([k1 v1] & <- & Hx).
  apply in_map_iff in Hy. destruct Hy as ([k2 v2] & <- & Hy).
  specialize (Hl1 _ Hx). specialize (Hl4 _ Hy). simpl in *.
  sec_arith.
Qed.

Lemma in_firstn (A : Type) n (l : list A) x : In x (firstn n l) -> In x l.
Proof.
  intros H. rewrite <- (firstn_skipn n l). apply in_or_app. auto.
Qed.

Lemma in_skipn (A : Type) n (l : list A) x : In x (skipn n l) -> In x l.
Proof.
  intros H. rewrite <- (firstn_skipn n l). apply in_or_app. auto.
Qed.

Lemma erase_range_incl m first last e :
  In e (erase_range m first last) -> In e m.
Proof.
  unfold erase_range. rewrite in_app_iff.
  intros [H | H]; [eapply in_firstn, H | eapply in_skipn, H].
Qed.

Lemma assign_keys k v m x :
  In x (keys (assign k v m)) -> x = k \/ In x (keys m).
Proof.
  unfold keys. induction m as [|[k' v'] m IH]; simpl.
  - intros [<- | []]; auto.
  - destruct (sec_ltb k k'); [|destruct (sec_eqb_spec k k')]; simpl.
    + intros [<- | H]; auto.
    + intros [<- | H]; auto.
    + intros [<- | H]; auto. destruct (IH H); auto.
Qed.

Lemma assign_stores k v m : In (k, v) (assign k v m).
Proof.
  induction m as [|[k' v'] m IH]; simpl; [auto|].
  destruct (sec_ltb k k'); [|destruct (sec_eqb k k')]; simpl; auto.
Qed.

Lemma assign_ok k v m : map_ok m -> map_ok (assign k v m).
Proof.
  unfold map_ok. induction m as [|[k' v'] m IH]; simpl; intros Hs.
  - repeat constructor.
  - apply StronglySorted_inv in Hs. destruct Hs as [Hs Hall].
    destruct (sec_ltb_spec k k') as [Hlt | Hge].
    + simpl. constructor; [constructor; assumption|].
      constructor; [assumption|].
      eapply Forall_impl; [|exact Hall].
      intros a Ha. eapply sec_lt_trans; eassumption.
    + destruct (sec_eqb_spec k k') as [-> | Hne]; simpl.
      * constructor; assumption.
      * constructor; [apply IH, Hs|].
        apply Forall_forall. intros x Hx.
        apply assign_keys in Hx. destruct Hx as [-> | Hx].
        -- clear - Hge Hne. sec_arith.
        -- rewrite Forall_forall in Hall. auto.
Qed.
End OrderedMapFacts.

(** ** The decoder pool *)

Lemma select_decoder_cases (decoders : DecoderMap) (t : Seconds) :
  map_ok decoders ->
  (decoders = [] /\ select_decoder decoders t = None) \/
  (exists pos decoder after,
      decoders = (pos, decoder) :: after /\ sec_lt t pos /\
      select_decoder decoders t = Some (pos, decoder, after)) \/
  (exists before pos decoder after,
      decoders = before ++ (pos, decoder) :: after /\ sec_le pos t /\
      (forall e, In e after -> sec_lt t (fst e)) /\
      select_decoder decoders t = Some (pos, decoder, before ++ after)).
Proof.
  intros Hok. unfold select_decoder, upper_bound.
  destruct (first_index_split _ decoders (upper_bound_upward t) Hok)
    as (l1 & l2 & E & Hlen & Hl1 & Hl2).
  rewrite <- Hlen.
  destruct l1 as [|e0 l1'] using rev_ind; [|clear IHl1'].
  - simpl in *. subst decoders.
    destruct l2 as [|[pos d] l2]; [left; auto | right; left].
    exists pos, d, l2. repeat split.
    specialize (Hl2 _ (or_introl eq_refl)). simpl in Hl2. sec_arith.
  - right; right. destruct e0 as [pos d].
    exists l1', pos, d, l2.
    assert (decoders = l1' ++ (pos, d) :: l2) as E'
      by (rewrite E, <- app_assoc; reflexivity).
    split; [exact E'|]. split.
    { specialize (Hl1 (pos, d)). simpl in Hl1.
      assert (sec_ltb t pos = false) by (apply Hl1, in_or_app; simpl; auto).
      sec_arith. }
    split; [intros e He; specialize (Hl2 _ He); simpl in Hl2; sec_arith|].
    rewrite length_app. simpl length.
    replace (length l1' + 1)%nat with (S (length l1')) by lia.
    simpl Nat.eqb. cbv iota. simpl Nat.pred.
    rewrite E'. rewrite nth_error_app2 by lia.
    rewrite Nat.sub_diag. simpl nth_error.
    unfold erase_at. rewrite firstn_length_app.
    replace (S (length l1')) with (length (l1' ++ [(pos, d)]))
      by (rewrite length_app; simpl; lia).
    replace (l1' ++ (pos, d) :: l2) with ((l1' ++ [(pos, d)]) ++ l2)
      by (rewrite <- app_assoc; reflexivity).
    rewrite skipn_length_app. reflexivity.
Qed.

(** C8.  The decoder reused for an interval starting at [t] is the pool
    entry with the largest position at or before [t] (the entry at [t]
    itself when there is one); when every entry lies after [t] it is the
    entry with the smallest position; and only an empty pool makes the
    worker call the opener, whose decoder is recorded at position zero. *)
Theorem select_decoder_nearest_at_or_before
    (pool : DecoderMap) (t : Seconds) :
  map_ok pool ->
  match select_decoder pool t with
  | Some (pos, decoder, rest) =>
      (exists before after,
          pool = before ++ (pos, decoder) :: after /\
          rest = before ++ after) /\
      (forall k, In k (keys pool) -> sec_le k t ->
                 sec_le k pos /\ sec_le pos t) /\
      (In t (keys pool) -> pos = t) /\
      ((forall k, In k (keys pool) -> sec_lt t k) ->
       forall k, In k (keys pool) -> sec_le pos k) /\
      (forall loader need needed changes keep_decoders,
          i_begin need = t ->
          let sys := mkSystem loader pool
                       (AtNeed (need :: needed) changes keep_decoders) in
          step Run sys =
            Some (mkSystem loader rest
                    (Decoding need needed changes keep_decoders
                       pos decoder)) /\
          forall r, step (Opener r) sys = None)
  | None =>
      pool = [] /\
      forall loader need needed changes keep_decoders decoder,
        step (Opener (Some decoder))
             (mkSystem loader pool (AtNeed (need :: needed) changes
                                      keep_decoders)) =
        Some (mkSystem loader pool
                (Decoding need needed changes keep_decoders
                   zero_seconds decoder))
  end.
Proof.
  intros Hok.
  destruct (select_decoder_cases pool t Hok)
    as [[E Hsel] | [(pos & d & after & E & Hlt & Hsel)
                   | (before & pos & d & after & E & Hle & Hafter & Hsel)]].
  - rewrite Hsel. split; [assumption|]. intros. subst pool. reflexivity.
  - rewrite Hsel. unfold map_ok, keys in Hok. rewrite E in Hok |- *.
    simpl in Hok. apply StronglySorted_inv in Hok. destruct Hok as [_ Hall].
    rewrite Forall_forall in Hall.
    assert (forall k, In k (keys ((pos, d) :: after)) -> sec_lt t k) as Hall_after.
    { simpl. intros k [<- | Hk]; [assumption|].
      eapply sec_lt_trans; [exact Hlt | apply Hall, Hk]. }
    split; [exists [], after; auto|]. split; [|split; [|split]].
    + intros k Hk Hkt. apply Hall_after in Hk. clear - Hk Hkt. sec_arith.
    + intros Hk. apply Hall_after in Hk. destruct (sec_lt_irrefl _ Hk).
    + simpl. intros _ k [<- | Hk]; [apply sec_le_refl|].
      apply sec_lt_le, Hall, Hk.
    + intros ld need needed c keep Hb. simpl. rewrite Hb, <- E, Hsel. auto.
  - rewrite Hsel. unfold map_ok, keys in Hok. rewrite E in Hok |- *.
    rewrite map_app in Hok. simpl in Hok.
    apply sorted_app_inv in Hok. destruct Hok as (_ & Hs2 & H12).
    assert (forall k, In k (keys (before ++ (pos, d) :: after)) ->
                      sec_le k t -> sec_le k pos) as Hmax.
    { unfold keys. rewrite map_app. simpl. intros k Hk Hkt.
      apply in_app_or in Hk. destruct Hk as [Hk | [<- | Hk]].
      - apply sec_lt_le, H12; simpl; auto.
      - apply sec_le_refl.
      - apply in_map_iff in Hk. destruct Hk as ([k' v'] & <- & He).
        apply Hafter in He. simpl in *. clear - He Hkt. sec_arith. }
    split; [exists before, after; auto|]. split; [|split; [|split]].
    + intros k Hk Hkt. split; [apply Hmax; assumption | assumption].
    + intros Hk. specialize (Hmax t Hk (sec_le_refl t)).
      clear - Hmax Hle. sec_arith.
    + intros Hall k Hk.
      assert (sec_lt t pos) as Hlt.
      { apply Hall. unfold keys. rewrite map_app. apply in_or_app.
        simpl. auto. }
      clear - Hlt Hle. sec_arith.
    + intros ld need needed c keep Hb. simpl. rewrite Hb, <- E, Hsel. auto.
Qed.

Lemma select_decoder_nearest_at_or_before_witness :
  map_ok [(Fin 1, 10%nat); (Fin 3, 11%nat); (Fin 5, 12%nat)] /\
  select_decoder [(Fin 1, 10%nat); (Fin 3, 11%nat); (Fin 5, 12%nat)] (Fin 4)
    = Some (Fin 3, 11%nat, [(Fin 1, 10%nat); (Fin 5, 12%nat)]) /\
  (forall k, In k [Fin 1; Fin 3; Fin 5] -> sec_le k (Fin 4) ->
             sec_le k (Fin 3) /\ sec_le (Fin 3) (Fin 4)).
Proof.
  assert (map_ok [(Fin 1, 10%nat); (Fin 3, 11%nat); (Fin 5, 12%nat)]) as Hok.
  { unfold map_ok; simpl. repeat constructor; simpl; lia. }
  split; [exact Hok|]. split; [reflexivity|].
  exact (proj1 (proj2
    (select_decoder_nearest_at_or_before
       [(Fin 1, 10%nat); (Fin 3, 11%nat); (Fin 5, 12%nat)] (Fin 4) Hok))).
Defined.

(** ** set_request *)

Lemma set_eqb_spec a b : reflect (a = b) (set_eqb a b).
Proof.
  unfold set_eqb. destruct (IntervalSet_eq_dec a b); constructor; assumption.
Qed.

Lemma fold_drop_done es : forall ld,
  done (fold_left drop_interval es ld) = erase_set es (done ld).
Proof.
  unfold erase_set.
  induction es as [|e es IH]; intros ld; simpl; [reflexivity|].
  rewrite IH. reflexivity.
Qed.

Lemma fold_drop_eof es : forall ld,
  eof (fold_left drop_interval es ld) = eof ld.
Proof.
  induction es as [|e es IH]; intros ld; simpl; [reflexivity|].
  rewrite IH. reflexivity.
Qed.

Lemma fold_drop_frames_incl es : forall ld e,
  In e (frames (fold_left drop_interval es ld)) -> In e (frames ld).
Proof.
  induction es as [|c es IH]; intros ld e; simpl; [auto|].
  intros H. apply IH in H. simpl in H.
  eapply erase_range_incl, H.
Qed.

Lemma fold_drop_frames_ok es : forall ld,
  all_nonempty es -> map_ok (frames ld) ->
  map_ok (frames (fold_left drop_interval es ld)).
Proof.
  induction es as [|c es IH]; intros ld Hne Hok; simpl; [assumption|].
  inversion Hne as [|? ? Hc Hes]; subst.
  apply IH; [assumption|]. simpl.
  apply erase_range_lower_bounds_ok; [assumption|].
  apply sec_lt_le, Hc.
Qed.

Lemma fold_drop_frames es : forall ld e,
  all_nonempty es -> map_ok (frames ld) ->
  (In e (frames (fold_left drop_interval es ld)) <->
   In e (frames ld) /\ ~ covers es (fst e)).
Proof.
  induction es as [|c es IH]; intros ld e Hne Hok; simpl.
  - pose proof (covers_nil (fst e)). tauto.
  - inversion Hne as [|? ? Hc Hes]; subst.
    rewrite IH; [|assumption|].
    + simpl. rewrite erase_range_lower_bounds by assumption.
      rewrite covers_cons. destruct c as [a b]. simpl. tauto.
    + simpl. apply erase_range_lower_bounds_ok; [assumption|].
      apply sec_lt_le, Hc.
Qed.

Lemma set_request_same w n st :
  w = wanted st -> set_request w n st = set_notify n st.
Proof.
  intros ->. unfold set_request. simpl.
  destruct (set_eqb_spec (wanted st) (wanted st)); [reflexivity | congruence].
Qed.

Lemma set_request_differs w n st :
  w <> wanted st ->
  set_request w n st =
  wakeup_set
    (set_wanted w
       (set_load (fold_left drop_interval (to_erase w (load st)) (load st))
          (set_notify n st))).
Proof.
  intros Hne. unfold set_request. simpl.
  destruct (set_eqb_spec w (wanted st)); [congruence | reflexivity].
Qed.

Lemma set_request_wanted w n st : wanted (set_request w n st) = w.
Proof.
  destruct (IntervalSet_eq_dec w (wanted st)) as [E | Hne].
  - rewrite set_request_same by assumption. simpl. congruence.
  - rewrite set_request_differs by assumption. reflexivity.
Qed.

Lemma set_request_eof w n st :
  eof (load (set_request w n st)) = eof (load st).
Proof.
  destruct (IntervalSet_eq_dec w (wanted st)) as [E | Hne].
  - rewrite set_request_same by assumption. reflexivity.
  - rewrite set_request_differs by assumption. simpl. apply fold_drop_eof.
Qed.

Lemma set_request_frames_incl w n st e :
  In e (frames (load (set_request w n st))) -> In e (frames (load st)).
Proof.
  destruct (IntervalSet_eq_dec w (wanted st)) as [E | Hne].
  - rewrite set_request_same by assumption. auto.
  - rewrite set_request_differs by assumption. simpl.
    apply fold_drop_frames_incl.
Qed.

Lemma set_request_done_incl w n st t :
  covers (done (load (set_request w n st))) t -> covers (done (load st)) t.
Proof.
  destruct (IntervalSet_eq_dec w (wanted st)) as [E | Hne].
  - rewrite set_request_same by assumption. auto.
  - rewrite set_request_differs by assumption. simpl.
    rewrite fold_drop_done, covers_erase_set. tauto.
Qed.

Lemma set_request_cache_ok w n st :
  cache_ok (load st) -> cache_ok (load (set_request w n st)).
Proof.
  intros [Hf Hd].
  destruct (IntervalSet_eq_dec w (wanted st)) as [E | Hne].
  - rewrite set_request_same by assumption. split; assumption.
  - rewrite set_request_differs by assumption. simpl.
    assert (all_nonempty (to_erase w (load st))) as Hne'
      by (apply erase_set_nonempty, Hd).
    split.
    + apply fold_drop_frames_ok; assumption.
    + rewrite fold_drop_done. apply erase_set_canonical, Hd.
Qed.

(** What [set_request] with a changed request leaves in the cache. *)
Lemma set_request_drops w n st :
  cache_ok (load st) -> w <> wanted st ->
  let before := load st in
  let after := loaded (set_request w n st) in
  (forall t, covers (to_erase w before) t <->
             covers (done before) t /\ ~ covers w t) /\
  (forall t, covers (done after) t <->
             covers (done before) t /\ ~ covers (to_erase w before) t) /\
  (forall e, In e (frames after) <->
             In e (frames before) /\ ~ covers (to_erase w before) (fst e)) /\
  (forall t, covers (done after) t -> covers w t) /\
  (forall k, In k (keys (frames after)) ->
             covers (done before) k -> covers w k).
Proof.
  intros [Hf [_ Hd]] Hne before after.
  assert (all_nonempty (to_erase w before)) as Hne'
    by (apply erase_set_nonempty, Hd).
  assert (forall t, covers (to_erase w before) t <->
                    covers (done before) t /\ ~ covers w t) as Herase
    by (intros t; apply covers_erase_set).
  assert (forall t, covers (done after) t <->
             covers (done before) t /\ ~ covers (to_erase w before) t) as Hdone.
  { intros t. unfold after, loaded. rewrite set_request_differs by assumption.
    simpl. rewrite fold_drop_done. apply covers_erase_set. }
  assert (forall e, In e (frames after) <->
             In e (frames before) /\ ~ covers (to_erase w before) (fst e))
    as Hframes.
  { intros e. unfold after, loaded. rewrite set_request_differs by assumption.
    simpl. apply fold_drop_frames; assumption. }
  split; [exact Herase|]. split; [exact Hdone|]. split; [exact Hframes|].
  split.
  - intros t Ht. apply Hdone in Ht. rewrite Herase in Ht.
    destruct (covers_dec w t); tauto.
  - intros k Hk Hcov. unfold keys in Hk. apply in_map_iff in Hk.
    destruct Hk as (e & <- & He). apply Hframes in He.
    rewrite Herase in He. destruct (covers_dec w (fst e)); tauto.
Qed.

(** ** One step of the loader, seen from the cache *)

Lemma classify_cases nb frame img st c st' c' :
  classify nb frame img st c = Some (st', c') ->
  (st' = st /\ c' = c) \/
  (frame = None /\ st' = eof_new nb st /\ c' = S c /\
   forall e, eof (load st) = Some e -> sec_lt nb e) \/
  (exists f o,
      frame = Some f /\ In o (wanted st) /\
      sec_lt (i_begin (time f)) (i_begin o) /\
      st' = done_insert (mkInterval (i_begin o) (i_end (time f))) st /\
      c' = S c) \/
  (exists f,
      frame = Some f /\
      st' = frames_assign (i_begin (time f)) img (done_insert (time f) st) /\
      c' = S c).
Proof.
  unfold classify. destruct frame as [f|].
  - destruct (Nat.eqb _ _).
    + intros [= <- <-]. auto.
    + destruct (deref _ _) as [o|] eqn:Ho; [|discriminate].
      apply nth_error_In in Ho.
      destruct (sec_ltb_spec (i_begin (time f)) (i_begin o)).
      * intros [= <- <-]. right; right; left. exists f, o. auto.
      * intros [= <- <-]. right; right; right. exists f. auto.
  - destruct (eof (load st)) as [e|].
    + destruct (sec_ltb_spec nb e).
      * intros [= <- <-]. right; left. repeat split; auto.
        intros ? [= <-]. assumption.
      * destruct (sec_eqb nb e); intros [= <- <-]; auto.
    + intros [= <- <-]. right; left. repeat split; auto. discriminate.
Qed.

Lemma step_loader act sys sys' :
  step act sys = Some sys' ->
  load (loader sys') = load (loader sys) \/
  (exists w n, act = CallSetRequest w n /\
               loader sys' = set_request w n (loader sys)) \/
  (exists need needed c keep,
      act = Opener None /\ phase sys = AtNeed (need :: needed) c keep /\
      loader sys' = done_insert need (loader sys)) \/
  (exists a need needed c keep pos d frame img pos' c',
      act = Decode a /\ phase sys = Decoding need needed c keep pos d /\
      decode_step (i_begin need) pos a = (frame, img, pos') /\
      classify (i_begin need) frame img (loader sys) c
        = Some (loader sys', c')).
Proof.
  destruct sys as [st decs ph]. unfold step. simpl.
  destruct act as [w n | | | r | a].
  - destruct (mutex_free ph && negb (shutdown st)); [|discriminate].
    intros [= <-]. right; left. eauto.
  - destruct (mutex_free ph && negb (shutdown st)); [|discriminate].
    intros [= <-]. left. reflexivity.
  - destruct ph as [| | needed c keep | |]; try discriminate.
    + intros [= <-]. left. unfold pass_start. simpl.
      destruct (shutdown st); [reflexivity|].
      destruct (keep_end_decoders _ _).
      destruct (set_empty _); reflexivity.
    + destruct (wakeup st); [|discriminate].
      intros [= <-]. left. reflexivity.
    + destruct needed as [|need needed].
      * intros [= <-]. left. unfold pass_end, fire_notify. simpl.
        destruct c; [reflexivity|]. destruct (notify st); reflexivity.
      * destruct (select_decoder _ _) as [[[pos d] rest]|]; [|discriminate].
        intros [= <-]. left. reflexivity.
  - destruct ph as [| | needed c keep | |]; try discriminate.
    destruct needed as [|need needed]; [discriminate|].
    destruct (select_decoder _ _); [discriminate|].
    intros [= <-]. destruct r as [d|]; simpl.
    + left. reflexivity.
    + right; right; left. exists need, needed, c, keep. auto.
  - destruct ph as [| | | need needed c keep pos d |]; try discriminate.
    unfold finish_decode.
    destruct (decode_step (i_begin need) pos a) as [[frame img] pos'] eqn:Hd.
    destruct (classify _ _ _ _ _) as [[st' c']|] eqn:Hc; [|discriminate].
    intros [= <-]. right; right; right.
    exists a, need, needed, c, keep, pos, d, frame, img, pos', c'.
    simpl. auto.
Qed.

Lemma run_app acts1 : forall acts2 sys,
  run (acts1 ++ acts2) sys =
  match run acts1 sys with
  | Some sys' => run acts2 sys'
  | None => None
  end.
Proof.
  induction acts1 as [|a acts1 IH]; intros acts2 sys; simpl; [reflexivity|].
  destruct (step a sys); [apply IH | reflexivity].
Qed.

Lemma reachable_step act sys sys' :
  reachable sys -> step act sys = Some sys' -> reachable sys'.
Proof.
  intros [acts Hrun] Hstep. exists (acts ++ [act]).
  rewrite run_app, Hrun. simpl. rewrite Hstep. reflexivity.
Qed.

(** ** The cache keeps its representation *)

Lemma done_insert_cache_ok i st :
  cache_ok (load st) -> cache_ok (load (done_insert i st)).
Proof.
  intros [Hf Hd]. split; simpl; [assumption|].
  apply insert_canonical, Hd.
Qed.

Lemma frames_assign_cache_ok k v st :
  cache_ok (load st) -> cache_ok (load (frames_assign k v st)).
Proof.
  intros [Hf Hd]. split; simpl; [apply assign_ok, Hf | assumption].
Qed.

Lemma step_cache_ok act sys sys' :
  step act sys = Some sys' ->
  cache_ok (load (loader sys)) -> cache_ok (load (loader sys')).
Proof.
  intros Hstep Hok.
  destruct (step_loader _ _ _ Hstep)
    as [E | [(w & n & _ & E) | [(need & ? & ? & ? & _ & _ & E)
       | (a & need & ? & c & ? & ? & ? & frame & img & ? & c' & _ & _ & _ & Hc)]]].
  - rewrite E. assumption.
  - rewrite E. apply set_request_cache_ok, Hok.
  - rewrite E. apply done_insert_cache_ok, Hok.
  - destruct (classify_cases _ _ _ _ _ _ _ Hc)
      as [[-> _] | [(_ & -> & _) | [(f & o & _ & _ & _ & -> & _)
         | (f & _ & -> & _)]]].
    + assumption.
    + exact Hok.
    + apply done_insert_cache_ok, Hok.
    + apply frames_assign_cache_ok, done_insert_cache_ok, Hok.
Qed.

Lemma run_cache_ok acts : forall sys sys',
  run acts sys = Some sys' ->
  cache_ok (load (loader sys)) -> cache_ok (load (loader sys')).
Proof.
  induction acts as [|a acts IH]; intros sys sys'; simpl.
  - intros [= <-]. auto.
  - destruct (step a sys) as [sys1|] eqn:Hstep; [|discriminate].
    intros Hrun Hok. eapply IH; [exact Hrun|].
    eapply step_cache_ok; eassumption.
Qed.

Lemma reachable_cache_ok sys : reachable sys -> cache_ok (load (loader sys)).
Proof.
  intros [acts Hrun]. eapply run_cache_ok; [exact Hrun|].
  split; simpl; [constructor | apply canonical_nil].
Qed.

(** ** The end of file and the cache (C1) *)

Lemma keys_in (V : Type) (m : omap V) k :
  In k (keys m) <-> exists v, In (k, v) m.
Proof.
  unfold keys. rewrite in_map_iff. split.
  - intros ([k' v] & <- & H). exists v. exact H.
  - intros (v & H). exists (k, v). auto.
Qed.

Lemma decode_step_orderly T nb pos a frame img pos' :
  orderly_answers T nb a ->
  decode_step nb pos a = (frame, img, pos') ->
  match frame with
  | Some f => within_stream T f
  | None => sec_le T nb
  end.
Proof.
  unfold orderly_answers, decode_step. intros [-> Hnext].
  rewrite andb_false_r.
  destruct (next_frame a) as [f | |]; [|intros [= <- _ _]; exact Hnext | tauto].
  destruct (load_image a); intros [= <- _ _]; exact Hnext.
Qed.

Lemma stream_bounds_done_insert T i st :
  sec_le zero_seconds (i_begin i) -> sec_le (i_end i) T ->
  stream_bounds T (load st) -> stream_bounds T (load (done_insert i st)).
Proof.
  intros Hb He (Hk & Hd & Heof).
  split; [exact Hk|]. split; [|exact Heof].
  simpl. intros t Ht. apply covers_insert in Ht.
  destruct Ht as [Hc | Hc]; [|apply Hd, Hc].
  clear - Hc Hb He. unfold zero_seconds in *. sec_crush.
Qed.

Lemma stream_bounds_frames_assign T k v st :
  sec_le k T ->
  stream_bounds T (load st) -> stream_bounds T (load (frames_assign k v st)).
Proof.
  intros Hle (Hk & Hd & Heof).
  split; [|split; [exact Hd | exact Heof]].
  simpl. intros x Hx. apply assign_keys in Hx.
  destruct Hx as [-> | Hx]; auto.
Qed.

Lemma step_stream_bounds T act sys sys' :
  orderly T act sys -> step act sys = Some sys' ->
  stream_bounds T (load (loader sys)) -> stream_bounds T (load (loader sys')).
Proof.
  intros Hord Hstep Hinv.
  destruct (step_loader _ _ _ Hstep)
    as [E | [(w & n & _ & E) | [(need & ? & ? & ? & Hact & _ & _)
       | (a & need & ? & c & ? & pos & ? & frame & img & ? & c'
            & Hact & Hph & Hdec & Hc)]]].
  - rewrite E. assumption.
  - rewrite E. destruct Hinv as (Hk & Hd & Heof). split; [|split].
    + intros k Hin. apply Hk. apply keys_in in Hin. destruct Hin as (v & Hin).
      apply keys_in. exists v. eapply set_request_frames_incl, Hin.
    + intros t Ht. eapply Hd, set_request_done_incl, Ht.
    + rewrite set_request_eof. exact Heof.
  - subst act. destruct Hord.
  - subst act. unfold orderly in Hord. rewrite Hph in Hord.
    pose proof (decode_step_orderly _ _ _ _ _ _ _ Hord Hdec) as Hframe.
    destruct (classify_cases _ _ _ _ _ _ _ Hc)
      as [[-> _] | [(-> & -> & _) | [(f & o & -> & _ & Hlt & -> & _)
         | (f & -> & -> & _)]]].
    + assumption.
    + destruct Hinv as (Hk & Hd & Heof).
      split; [exact Hk|]. split; [exact Hd|].
      simpl. intros e [= <-]. exact Hframe.
    + destruct Hframe as (H0 & Hbe & HT).
      apply stream_bounds_done_insert; simpl; auto.
      destruct f as [[fb fe] px], o as [ob oe]. simpl in *.
      clear - H0 Hlt. unfold zero_seconds in *. sec_arith.
    + destruct Hframe as (H0 & Hbe & HT).
      apply stream_bounds_frames_assign.
      * destruct f as [[fb fe] px]. simpl in *. clear - Hbe HT. sec_arith.
      * apply stream_bounds_done_insert; auto.
Qed.

Lemma run_stream_bounds T acts : forall sys sys',
  orderly_run T acts sys -> run acts sys = Some sys' ->
  stream_bounds T (load (loader sys)) -> stream_bounds T (load (loader sys')).
Proof.
  induction acts as [|a acts IH]; intros sys sys'; simpl.
  - intros _ [= <-]. auto.
  - intros [Hord Hrest]. destruct (step a sys) as [sys1|] eqn:Hstep;
      [|discriminate].
    intros Hrun Hinv. eapply IH; [exact Hrest | exact Hrun |].
    eapply step_stream_bounds; eassumption.
Qed.

Lemma stream_bounds_eof_bounds T ld : stream_bounds T ld -> eof_bounds ld.
Proof.
  intros (Hk & Hd & Heof) e He. specialize (Heof e He). split.
  - intros k Hin. specialize (Hk k Hin). clear - Hk Heof. sec_arith.
  - intros t Ht. destruct (Hd t Ht) as [H0 HT]. split; [assumption|].
    clear - HT Heof. sec_arith.
Qed.

(** C1, as the code has it.  While the opener and the decoder do not throw
    and answer like a stream that starts at zero and ends at [T], every
    state the loader reaches has [eof] unset or at or after every key of
    [frames], and [done] within [0, eof).  (The step that finds the end of
    file only sets [eof] and trims [wanted]; it takes nothing out of [done]
    or [frames].) *)
Theorem eof_bounds_on_orderly_stream (T : Seconds) (acts : list Action)
    (sys : System) :
  orderly_run T acts initial ->
  run acts initial = Some sys ->
  eof_bounds (loaded (loader sys)).
Proof.
  intros Hord Hrun. apply (stream_bounds_eof_bounds T).
  eapply run_stream_bounds; [exact Hord | exact Hrun |].
  split; [|split]; simpl.
  - intros k [].
  - intros t H. destruct (covers_nil _ H).
  - discriminate.
Qed.

Lemma eof_bounds_on_orderly_stream_witness :
  orderly_run (Fin 2) two_frame_stream initial /\
  exists sys,
    run two_frame_stream initial = Some sys /\
    eof (loaded (loader sys)) = Some (Fin 2) /\
    eof_bounds (loaded (loader sys)).
Proof.
  assert (orderly_run (Fin 2) two_frame_stream initial) as Hord.
  { simpl. unfold within_stream. repeat split; vm_compute; congruence. }
  split; [exact Hord|].
  eexists. split; [reflexivity|]. split; [reflexivity|].
  apply (eof_bounds_on_orderly_stream (Fin 2) two_frame_stream);
    [exact Hord | reflexivity].
Defined.

(** C1, refuted as stated: a decode failure at 0, taken as the end of file,
    leaves [eof] at 0 below the frame loaded earlier at 5 and below the
    [done] interval [5, 6). *)
Lemma eof_set_below_loaded_frames :
  exists sys,
    run failure_below_frames initial = Some sys /\
    eof (loaded (loader sys)) = Some (Fin 0) /\
    In (Fin 5) (keys (frames (loaded (loader sys)))) /\
    covers (done (loaded (loader sys))) (Fin 5) /\
    ~ eof_bounds (loaded (loader sys)).
Proof.
  eexists. split; [reflexivity|]. simpl.
  split; [reflexivity|]. split; [auto|]. split.
  - exists (span 5 6). split; [simpl; auto|]. unfold contains; simpl. lia.
  - intros H. destruct (H (Fin 0) eq_refl) as [Hk _].
    specialize (Hk (Fin 5) (or_introl eq_refl)). simpl in Hk. lia.
Qed.

(** ** set_request (C3, C7, C10) *)

(** What a changed request does remove.  When [set_request w] changes the
    request of a reachable loader, what it erases is [done - w]; [done]
    afterwards is the part of the old [done] inside [w]; the frames left
    are those whose key is in none of the erased intervals; so the snapshot
    has [done] within [w], and no frame key that the old [done] covered
    lies outside [w].  If every frame key was covered by [done], every key
    left is in [w]. *)
Theorem set_request_drops_outside_wanted (sys : System) (w : IntervalSet)
    (n : option ThreadSignal) :
  reachable sys ->
  w <> wanted (loader sys) ->
  let before := loaded (loader sys) in
  let after := loaded (set_request w n (loader sys)) in
  (forall t, covers (to_erase w before) t <->
             covers (done before) t /\ ~ covers w t) /\
  (forall t, covers (done after) t <->
             covers (done before) t /\ ~ covers (to_erase w before) t) /\
  (forall k img, In (k, img) (frames after) <->
             In (k, img) (frames before) /\ ~ covers (to_erase w before) k) /\
  (forall t, covers (done after) t -> covers w t) /\
  (forall k, In k (keys (frames after)) ->
             covers (done before) k -> covers w k) /\
  ((forall k, In k (keys (frames before)) -> covers (done before) k) ->
   forall k, In k (keys (frames after)) -> covers w k).
Proof.
  intros Hreach Hne before after.
  pose proof (reachable_cache_ok _ Hreach) as Hok.
  destruct (set_request_drops w n (loader sys) Hok Hne)
    as (Herase & Hdone & Hframes & Hin_w & Hkeys).
  split; [exact Herase|]. split; [exact Hdone|].
  split; [intros k img; apply (Hframes (k, img))|].
  split; [exact Hin_w|]. split; [exact Hkeys|].
  intros Hcovered k Hk. apply Hkeys; [exact Hk|].
  apply Hcovered. apply keys_in in Hk. destruct Hk as (v & Hv).
  apply keys_in. exists v. apply Hframes in Hv. tauto.
Qed.

Lemma set_request_drops_outside_wanted_witness :
  reachable after_two_frames /\
  [span 1 3] <> wanted (loader after_two_frames) /\
  let after := loaded (set_request [span 1 3] None (loader after_two_frames)) in
  frames after = [(Fin 1, Some 101%nat)] /\
  done after = [span 1 2] /\
  (forall t, covers (done after) t -> covers [span 1 3] t).
Proof.
  assert (reachable after_two_frames) as Hreach
    by (exists two_frame_stream; reflexivity).
  assert ([span 1 3] <> wanted (loader after_two_frames)) as Hne
    by discriminate.
  split; [exact Hreach|]. split; [exact Hne|].
  split; [reflexivity|]. split; [reflexivity|].
  exact (proj1 (proj2 (proj2 (proj2
    (set_request_drops_outside_wanted after_two_frames [span 1 3] None
       Hreach Hne))))).
Defined.

(** C3, on the code.  frame_loader.h says of [set_request]: "discarding
    frames outside them".  A frame of no duration is stored under its key
    without any interval entering [done]; since lines 50-59 look for frames
    only inside [done - wanted], narrowing the request then erases nothing,
    and the key 5 is still in the snapshot, outside [0, 1), when
    [set_request] returns. *)
Lemma set_request_keeps_uncovered_frame :
  exists sys,
    run empty_frame_stored initial = Some sys /\
    mutex_free (phase sys) = true /\
    [span 0 1] <> wanted (loader sys) /\
    let after := loaded (set_request [span 0 1] None (loader sys)) in
    In (Fin 5) (keys (frames after)) /\ ~ covers [span 0 1] (Fin 5).
Proof.
  eexists. split; [reflexivity|]. simpl.
  split; [reflexivity|]. split; [discriminate|]. split; [auto|].
  intros (i & [<- | []] & Hc). unfold contains in Hc. simpl in Hc. lia.
Qed.

(** C7.  [set_request] with the set already stored only replaces [notify]:
    it sets no signal and leaves [wanted], the cache and the wakeup state as
    they are.  So of two calls in a row with the same set, the second sets
    no signal, and together they wake the worker at most once. *)
Theorem set_request_same_wanted_is_idle (st : Loader) (w : IntervalSet)
    (n n1 n2 : option ThreadSignal) :
  let same := set_request (wanted st) n st in
  let once := set_request w n1 st in
  let twice := set_request w n2 once in
  (same = set_notify n st /\
   events same = events st /\ wakeup same = wakeup st /\
   loaded same = loaded st /\ wanted same = wanted st) /\
  (twice = set_notify n2 once /\
   events twice = events once /\ loaded twice = loaded once) /\
  (wakeups (events twice) <= S (wakeups (events st)))%nat.
Proof.
  intros same once twice.
  assert (same = set_notify n st) as Hsame
    by (apply set_request_same; reflexivity).
  assert (twice = set_notify n2 once) as Htwice.
  { apply set_request_same. unfold once.
    rewrite set_request_wanted. reflexivity. }
  split; [rewrite Hsame; simpl; auto|].
  split; [rewrite Htwice; simpl; auto|].
  rewrite Htwice. simpl. unfold once.
  destruct (IntervalSet_eq_dec w (wanted st)) as [E | Hne].
  - rewrite set_request_same by assumption. simpl. lia.
  - rewrite set_request_differs by assumption. unfold wakeups. simpl. lia.
Qed.

Lemma set_request_same_wanted_is_idle_witness :
  let st := mkLoader [span 0 3] (Some 7%nat)
              (mkLoaded [(Fin 0, Some 100%nat)] [span 0 1] None)
              false false [] in
  set_request [span 0 3] None st = set_notify None st /\
  wakeups (events (set_request [span 0 2] None
                     (set_request [span 0 2] None st))) = 1%nat.
Proof.
  intros st. split; [|reflexivity].
  exact (proj1 (proj1
    (set_request_same_wanted_is_idle st [span 0 2] None None None))).
Defined.

Lemma classify_signals nb frame img st c st' c' :
  classify nb frame img st c = Some (st', c') ->
  notify st' = notify st /\ events st' = events st.
Proof.
  intros Hc.
  destruct (classify_cases _ _ _ _ _ _ _ Hc)
    as [[-> _] | [(_ & -> & _) | [(f & o & _ & _ & _ & -> & _)
       | (f & _ & -> & _)]]]; simpl; auto.
Qed.

Lemma step_keeps_signals act sys sys' :
  is_set_request act = false ->
  notify (loader sys) = None ->
  step act sys = Some sys' ->
  notify (loader sys') = None /\
  caller_signals (events (loader sys')) = caller_signals (events (loader sys)).
Proof.
  destruct sys as [st decs ph]. unfold step. simpl. intros Hact Hn.
  destruct act as [w n | | | r | a]; [discriminate | | | |].
  - destruct (mutex_free ph && negb (shutdown st)); [|discriminate].
    intros [= <-]. simpl. auto.
  - destruct ph as [| | needed c keep | |]; try discriminate.
    + intros [= <-]. unfold pass_start. simpl.
      destruct (shutdown st); [simpl; auto|].
      destruct (keep_end_decoders _ _).
      destruct (set_empty _); simpl; auto.
    + destruct (wakeup st); [|discriminate].
      intros [= <-]. simpl. auto.
    + destruct needed as [|need needed].
      * intros [= <-]. unfold pass_end, fire_notify. simpl.
        rewrite Hn. destruct c; auto.
      * destruct (select_decoder _ _) as [[[pos d] rest]|]; [|discriminate].
        intros [= <-]. simpl. auto.
  - destruct ph as [| | needed c keep | |]; try discriminate.
    destruct needed as [|need needed]; [discriminate|].
    destruct (select_decoder _ _); [discriminate|].
    intros [= <-]. destruct r as [d|]; simpl; auto.
  - destruct ph as [| | | need needed c keep pos d |]; try discriminate.
    unfold finish_decode.
    destruct (decode_step (i_begin need) pos a) as [[frame img] pos'].
    destruct (classify _ _ _ _ _) as [[st' c']|] eqn:Hc; [|discriminate].
    intros [= <-]. simpl.
    destruct (classify_signals _ _ _ _ _ _ _ Hc) as [-> ->]. auto.
Qed.

Lemma run_keeps_signals acts : forall sys sys',
  forallb (fun a => negb (is_set_request a)) acts = true ->
  notify (loader sys) = None ->
  run acts sys = Some sys' ->
  notify (loader sys') = None /\
  caller_signals (events (loader sys')) = caller_signals (events (loader sys)).
Proof.
  induction acts as [|a acts IH]; intros sys sys'; simpl.
  - intros _ Hn [= <-]. auto.
  - intros Hall Hn. apply andb_prop in Hall. destruct Hall as [Ha Hall].
    destruct (step a sys) as [sys1|] eqn:Hstep; [|discriminate].
    intros Hrun.
    destruct (step_keeps_signals a sys sys1) as [Hn1 E1]; auto.
    { destruct (is_set_request a); [discriminate | reflexivity]. }
    destruct (IH _ _ Hall Hn1 Hrun) as [Hn' E']. split; congruence.
Qed.

(** C10.  Every [set_request] stores its [notify] argument, also when the
    wanted set is the one already stored; called without one it leaves no
    signal stored, the end of a pass then sets none, and as long as no
    other [set_request] comes the worker sets no signal of the caller. *)
Theorem set_request_replaces_notify (st : Loader) (w : IntervalSet)
    (n : option ThreadSignal) :
  notify (set_request w n st) = n /\
  notify (set_request (wanted st) n st) = n /\
  (forall changes,
      fire_notify changes (set_request w None st) = set_request w None st) /\
  (forall decoders phase acts sys',
      forallb (fun a => negb (is_set_request a)) acts = true ->
      run acts (mkSystem (set_request w None st) decoders phase) = Some sys' ->
      notify (loader sys') = None /\
      caller_signals (events (loader sys')) = caller_signals (events st)).
Proof.
  assert (forall w' n', notify (set_request w' n' st) = n') as Hnotify.
  { intros w' n'. destruct (IntervalSet_eq_dec w' (wanted st)) as [E | Hne].
    - rewrite set_request_same by assumption. reflexivity.
    - rewrite set_request_differs by assumption. reflexivity. }
  split; [apply Hnotify|]. split; [apply Hnotify|]. split.
  - intros changes. unfold fire_notify. rewrite Hnotify.
    destruct changes; reflexivity.
  - intros decs ph acts sys' Hall Hrun.
    destruct (run_keeps_signals acts
                (mkSystem (set_request w None st) decs ph) sys'
                Hall (Hnotify w None) Hrun) as [Hn E].
    split; [exact Hn|]. rewrite E. simpl.
    destruct (IntervalSet_eq_dec w (wanted st)) as [Ew | Hne].
    + rewrite set_request_same by assumption. reflexivity.
    + rewrite set_request_differs by assumption. reflexivity.
Qed.

Lemma set_request_replaces_notify_witness :
  let st := mkLoader [span 0 3] (Some 7%nat) (mkLoaded [] [] None)
              false false [] in
  let acts := [Run; Run; Opener (Some 1%nat);
               Decode (mkAnswers false (frame_at 0 1) (Some 100%nat)); Run] in
  notify (set_request [span 0 3] None st) = None /\
  forallb (fun a => negb (is_set_request a)) acts = true /\
  exists sys',
    run acts (mkSystem (set_request [span 0 4] None st) [] Waiting)
      = Some sys' /\
    phase sys' = AtLoopTest /\
    caller_signals (events (loader sys')) = caller_signals (events st).
Proof.
  intros st acts.
  split; [exact (proj1 (set_request_replaces_notify st [span 0 3] None))|].
  split; [reflexivity|].
  eexists. split; [reflexivity|]. split; [reflexivity|].
  exact (proj2 (proj2 (proj2 (proj2
    (set_request_replaces_notify st [span 0 4] None))) [] Waiting acts _
    eq_refl eq_refl)).
Defined.

(** ** The decode step and its classification (C2, C4, C5, C6) *)

Lemma decode_step_upload_throws nb pos a f :
  next_frame a = Produces f -> load_image a = None ->
  seek_before_throws a = false ->
  decode_step nb pos a =
    (Some f, None, if sec_eqb nb pos then pos else nb).
Proof.
  unfold decode_step. intros -> -> ->. rewrite andb_false_r.
  destruct (sec_eqb nb pos); reflexivity.
Qed.

Lemma classify_frame_keeps_eof nb f img st c st' c' :
  classify nb (Some f) img st c = Some (st', c') ->
  eof (load st') = eof (load st) /\ wanted st' = wanted st.
Proof.
  intros Hc.
  destruct (classify_cases _ _ _ _ _ _ _ Hc)
    as [[-> _] | [(Hnone & _) | [(f' & o & _ & _ & _ & -> & _)
       | (f' & _ & -> & _)]]]; simpl; auto.
  discriminate.
Qed.

(** C2, on the code.  When [load_image] throws, [frame] is already set: the
    step is classified as a frame, never as the end of file, so [eof] and
    [wanted] stay as they are.  In the run [upload_failure] the frame
    [0, 1) is wanted, so [done] gets [0, 1), [frames] gets an entry at 0
    holding a null image, and [eof] stays unset; the same run with
    [next_frame] throwing stores nothing and sets [eof] to 0. *)
Theorem upload_failure_stores_null_frame :
  (forall need_begin pos a f st changes st' changes',
      next_frame a = Produces f -> load_image a = None ->
      seek_before_throws a = false ->
      decode_step need_begin pos a =
        (Some f, None, if sec_eqb need_begin pos then pos else need_begin) /\
      (classify need_begin (Some f) None st changes = Some (st', changes') ->
       eof (load st') = eof (load st) /\ wanted st' = wanted st)) /\
  (exists sys,
      run upload_failure initial = Some sys /\
      frames (loaded (loader sys)) = [(Fin 0, None)] /\
      done (loaded (loader sys)) = [span 0 1] /\
      eof (loaded (loader sys)) = None /\
      wanted (loader sys) = [span 0 10]) /\
  (exists sys,
      run decode_failure initial = Some sys /\
      frames (loaded (loader sys)) = [] /\
      done (loaded (loader sys)) = [] /\
      eof (loaded (loader sys)) = Some (Fin 0) /\
      wanted (loader sys) = []).
Proof.
  split; [|split].
  - intros nb pos a f st c st' c' Hnext Himg Hseek. split.
    + apply decode_step_upload_throws; assumption.
    + apply classify_frame_keeps_eof.
  - eexists. split; [reflexivity|]. simpl. auto.
  - eexists. split; [reflexivity|]. simpl. auto.
Qed.

(** The classification of a decode step without a frame, for an interval
    starting at [need_begin]: with [eof] unset or after [need_begin], [eof]
    becomes [need_begin], [[need_begin, forever)] is erased from [wanted],
    and the step counts as a change; with [eof] equal to [need_begin], or
    before it, nothing changes. *)
Theorem classify_no_frame (need_begin : Seconds) (img : option LoadedImage)
    (st : Loader) (changes : nat) :
  ((eof (load st) = None \/
    exists e, eof (load st) = Some e /\ sec_lt need_begin e) ->
   exists st',
     classify need_begin None img st changes = Some (st', S changes) /\
     eof (load st') = Some need_begin /\
     wanted st' = erase (mkInterval need_begin forever) (wanted st) /\
     (forall t, covers (wanted st') t <->
                covers (wanted st) t /\ sec_lt t need_begin) /\
     frames (load st') = frames (load st) /\
     done (load st') = done (load st) /\
     notify st' = notify st /\ events st' = events st) /\
  (eof (load st) = Some need_begin ->
   classify need_begin None img st changes = Some (st, changes)) /\
  (forall e, eof (load st) = Some e -> sec_lt e need_begin ->
   classify need_begin None img st changes = Some (st, changes)).
Proof.
  split; [|split].
  - intros Hnew. exists (eof_new need_begin st). split.
    + unfold classify. destruct Hnew as [-> | (e & -> & Hlt)]; [reflexivity|].
      destruct (sec_ltb_spec need_begin e); [reflexivity | contradiction].
    + simpl. split; [reflexivity|]. split; [reflexivity|].
      split; [|repeat split; reflexivity].
      intros t. rewrite covers_erase. split.
      * intros [(i & Hin & Hc) Hout]. split; [exists i; auto|].
        clear - Hc Hout. unfold forever in *. sec_arith.
      * intros [Hc Hlt]. split; [assumption|].
        clear - Hlt. unfold forever in *. sec_arith.
  - intros E. unfold classify. rewrite E.
    destruct (sec_ltb_spec need_begin need_begin) as [Hlt | _].
    + destruct (sec_lt_irrefl _ Hlt).
    + destruct (sec_eqb need_begin need_begin); reflexivity.
  - intros e E Hlt. unfold classify. rewrite E.
    destruct (sec_ltb_spec need_begin e) as [Hlt' | _].
    + clear - Hlt Hlt'. sec_arith.
    + destruct (sec_eqb need_begin e); reflexivity.
Qed.

Lemma classify_no_frame_witness :
  let st := mkLoader [span 0 9] None
              (mkLoaded [(Fin 0, Some 100%nat)] [span 0 1] (Some (Fin 5)))
              false false [] in
  (exists st',
      classify (Fin 3) None None st 0 = Some (st', 1%nat) /\
      eof (load st') = Some (Fin 3) /\ wanted st' = [span 0 3]) /\
  classify (Fin 5) None None st 0 = Some (st, 0%nat) /\
  classify (Fin 7) None None st 0 = Some (st, 0%nat).
Proof.
  intros st.
  pose proof (classify_no_frame (Fin 3) None st 0) as (H3 & _ & _).
  pose proof (classify_no_frame (Fin 5) None st 0) as (_ & H5 & _).
  pose proof (classify_no_frame (Fin 7) None st 0) as (_ & _ & H7).
  split; [|split].
  - destruct H3 as (st' & Hc & He & Hw & _).
    + right. exists (Fin 5). split; [reflexivity | simpl; lia].
    + exists st'. auto.
  - apply H5. reflexivity.
  - apply (H7 (Fin 5)); [reflexivity | simpl; lia].
Defined.

Lemma decode_step_no_frame nb pos a img pos' :
  decode_step nb pos a = (None, img, pos') ->
  img = None /\
  ((pos <> nb /\ seek_before_throws a = true /\ pos' = pos) \/
   ((next_frame a = EndOfStream \/ next_frame a = NextFrameThrows) /\
    pos' = (if sec_eqb nb pos then pos else nb))).
Proof.
  unfold decode_step.
  destruct (sec_eqb_spec nb pos) as [E | Hne]; simpl.
  - destruct (next_frame a) as [f | |].
    + destruct (load_image a); discriminate.
    + intros [= <- <-]. auto.
    + intros [= <- <-]. auto.
  - destruct (seek_before_throws a).
    + intros [= <- <-]. split; [reflexivity|]. left. auto.
    + destruct (next_frame a) as [f | |].
      * destruct (load_image a); discriminate.
      * intros [= <- <-]. auto.
      * intros [= <- <-]. auto.
Qed.

(** C4.  The worker's decode step for [need] produces no frame: the seek
    threw, or [next_frame] threw or reported the end of the stream.  With
    [eof] unset or after [need.begin], the step sets [eof] to [need.begin],
    erases [[need.begin, forever)] from [wanted] and counts as a change;
    with [eof] equal to [need.begin], or before it, it changes nothing in
    the loader's state.  Either way the cache is as before and the decoder
    goes back to [keep_decoders]. *)
Theorem no_frame_step_marks_eof (sys : System) (need : Interval)
    (needed : list Interval) (changes : nat) (keep_decoders : DecoderMap)
    (pos : Seconds) (decoder : Decoder) (a : Answers)
    (img : option LoadedImage) (pos' : Seconds) :
  phase sys = Decoding need needed changes keep_decoders pos decoder ->
  decode_step (i_begin need) pos a = (None, img, pos') ->
  ((pos <> i_begin need /\ seek_before_throws a = true) \/
   next_frame a = EndOfStream \/ next_frame a = NextFrameThrows) /\
  ((eof (loaded (loader sys)) = None \/
    exists e, eof (loaded (loader sys)) = Some e /\
              sec_lt (i_begin need) e) ->
   exists sys',
     step (Decode a) sys = Some sys' /\
     eof (loaded (loader sys')) = Some (i_begin need) /\
     wanted (loader sys')
       = erase (mkInterval (i_begin need) forever) (wanted (loader sys)) /\
     (forall t, covers (wanted (loader sys')) t <->
                covers (wanted (loader sys)) t /\ sec_lt t (i_begin need)) /\
     frames (loaded (loader sys')) = frames (loaded (loader sys)) /\
     done (loaded (loader sys')) = done (loaded (loader sys)) /\
     notify (loader sys') = notify (loader sys) /\
     events (loader sys') = events (loader sys) /\
     decoders sys' = decoders sys /\
     phase sys' =
       AtNeed needed (S changes) (map_insert pos' decoder keep_decoders)) /\
  (eof (loaded (loader sys)) = Some (i_begin need) ->
   step (Decode a) sys =
     Some (mkSystem (loader sys) (decoders sys)
             (AtNeed needed changes
                (map_insert pos' decoder keep_decoders)))) /\
  (forall e, eof (loaded (loader sys)) = Some e ->
             sec_lt e (i_begin need) ->
   step (Decode a) sys =
     Some (mkSystem (loader sys) (decoders sys)
             (AtNeed needed changes
                (map_insert pos' decoder keep_decoders)))).
Proof.
  intros Hph Hdec. unfold loaded.
  destruct (classify_no_frame (i_begin need) img (loader sys) changes)
    as (Hnew & Hsame & Hafter).
  assert (forall r,
            classify (i_begin need) None img (loader sys) changes = Some r ->
            step (Decode a) sys =
              Some (mkSystem (fst r) (decoders sys)
                      (AtNeed needed (snd r)
                         (map_insert pos' decoder keep_decoders)))) as Hstep.
  { intros [st' c'] Hc. unfold step. rewrite Hph. unfold finish_decode.
    rewrite Hdec, Hc. reflexivity. }
  split; [|split; [|split]].
  - destruct (decode_step_no_frame _ _ _ _ _ Hdec) as [_ [H | [H _]]];
      [left; tauto | right; exact H].
  - intros Hcase. destruct (Hnew Hcase)
      as (st' & Hc & He & Hw & Hcov & Hf & Hd & Hn & Hev).
    eexists. split; [apply (Hstep _ Hc)|]. simpl.
    repeat (split; [assumption|]). auto.
  - intros He. apply (Hstep _ (Hsame He)).
  - intros e He Hlt. apply (Hstep _ (Hafter e He Hlt)).
Qed.

Lemma no_frame_step_marks_eof_witness :
  let st := mkLoader [span 0 9] None
              (mkLoaded [(Fin 0, Some 100%nat)] [span 0 1] (Some (Fin 5)))
              false false [] in
  let at_need b := mkSystem st []
                     (Decoding (span b 9) [] 0 [] (Fin b) 1%nat) in
  let a := mkAnswers false EndOfStream None in
  (exists sys',
      step (Decode a) (at_need 3) = Some sys' /\
      eof (loaded (loader sys')) = Some (Fin 3) /\
      wanted (loader sys') = [span 0 3] /\
      phase sys' = AtNeed [] 1 [(Fin 3, 1%nat)]) /\
  step (Decode a) (at_need 5)
    = Some (mkSystem st [] (AtNeed [] 0 [(Fin 5, 1%nat)])) /\
  step (Decode a) (at_need 7)
    = Some (mkSystem st [] (AtNeed [] 0 [(Fin 7, 1%nat)])).
Proof.
  intros st at_need a.
  pose proof (no_frame_step_marks_eof (at_need 3) (span 3 9) [] 0 []
                (Fin 3) 1%nat a None (Fin 3) eq_refl eq_refl)
    as (_ & H3 & _ & _).
  pose proof (no_frame_step_marks_eof (at_need 5) (span 5 9) [] 0 []
                (Fin 5) 1%nat a None (Fin 5) eq_refl eq_refl)
    as (_ & _ & H5 & _).
  pose proof (no_frame_step_marks_eof (at_need 7) (span 7 9) [] 0 []
                (Fin 7) 1%nat a None (Fin 7) eq_refl eq_refl)
    as (_ & _ & _ & H7).
  split; [|split].
  - destruct H3 as (sys' & Hs & He & Hw & _ & _ & _ & _ & _ & _ & Hp).
    + right. exists (Fin 5). split; [reflexivity | simpl; lia].
    + exists sys'. auto.
  - apply H5. reflexivity.
  - apply (H7 (Fin 5)); [reflexivity | simpl; lia].
Defined.

(** C5, as the code has it.  A decode step produced a frame.  If
    [wanted.overlap_begin(need.begin) == wanted.overlap_end(frame.time.end)]
    the loader's state, and so [done] and [frames], is left as it is, the
    step does not count as a change, and the image goes nowhere; only the
    decoder returns to [keep_decoders].  For a canonical [wanted] and a
    frame ending after [need.begin], the test holds exactly when no wanted
    interval reaches into [need.begin, frame.time.end). *)
Theorem obsolete_frame_is_discarded (sys : System) (need : Interval)
    (needed : list Interval) (changes : nat) (keep_decoders : DecoderMap)
    (pos : Seconds) (decoder : Decoder) (a : Answers) (f : MediaFrame)
    (img : option LoadedImage) (pos' : Seconds) :
  phase sys = Decoding need needed changes keep_decoders pos decoder ->
  decode_step (i_begin need) pos a = (Some f, img, pos') ->
  (overlap_begin (wanted (loader sys)) (i_begin need)
     = overlap_end (wanted (loader sys)) (i_end (time f)) ->
   classify (i_begin need) (Some f) img (loader sys) changes
     = Some (loader sys, changes) /\
   step (Decode a) sys =
     Some (mkSystem (loader sys) (decoders sys)
             (AtNeed needed changes
                (map_insert pos' decoder keep_decoders)))) /\
  (canonical (wanted (loader sys)) ->
   sec_lt (i_begin need) (i_end (time f)) ->
   (overlap_begin (wanted (loader sys)) (i_begin need)
      = overlap_end (wanted (loader sys)) (i_end (time f)) <->
    forall i, In i (wanted (loader sys)) ->
              ~ meets i (i_begin need) (i_end (time f)))).
Proof.
  intros Hph Hdec. split.
  - intros Hov.
    assert (classify (i_begin need) (Some f) img (loader sys) changes
            = Some (loader sys, changes)) as Hc.
    { unfold classify. rewrite Hov, Nat.eqb_refl. reflexivity. }
    split; [exact Hc|].
    unfold step. rewrite Hph. unfold finish_decode. rewrite Hdec, Hc.
    reflexivity.
  - intros Hcan Hlt. apply overlap_range_empty; assumption.
Qed.

Lemma obsolete_frame_is_discarded_witness :
  let st := mkLoader [span 0 1] None (mkLoaded [] [] None) false false [] in
  let sys := mkSystem st [] (Decoding (span 5 9) [] 0 [] (Fin 5) 1%nat) in
  let a := mkAnswers false (frame_at 5 6) (Some 100%nat) in
  step (Decode a) sys =
    Some (mkSystem st [] (AtNeed [] 0 [(Fin 6, 1%nat)])).
Proof.
  intros st sys a.
  exact (proj2 (proj1
    (obsolete_frame_is_discarded sys (span 5 9) [] 0 [] (Fin 5)
       1%nat a (mkFrame (span 5 6) 0%nat) (Some 100%nat) (Fin 6)
       eq_refl eq_refl) eq_refl)).
Defined.

(** C5, refuted as stated: under the request {[0, 1), [5, 6)} the decode
    step for [0, 1) gets the frame [7, 8).  No wanted interval shares an
    instant with the frame, yet the test of lines 197-198 runs from
    [need.begin] = 0, finds [0, 1), and the frame is stored: [frames] gets
    the key 7 and [done] gets [7, 8). *)
Lemma frame_past_every_wanted_interval_is_stored :
  exists sys sys',
    run up_to_decode_of_two_spans initial = Some sys /\
    phase sys = Decoding (span 0 1) [span 5 6] 0 [] (Fin 0) 1%nat /\
    (forall i, In i (wanted (loader sys)) -> ~ intersects i (span 7 8)) /\
    step (Decode (mkAnswers false (frame_at 7 8) (Some 100%nat))) sys
      = Some sys' /\
    frames (loaded (loader sys')) = [(Fin 7, Some 100%nat)] /\
    done (loaded (loader sys')) = [span 7 8] /\
    frames (loaded (loader sys)) = [] /\
    done (loaded (loader sys)) = [].
Proof.
  eexists. eexists. split; [reflexivity|]. split; [reflexivity|]. split.
  - simpl. intros i [<- | [<- | []]] (t & Hi & Hf);
      unfold contains in *; simpl in *; destruct t; simpl in *; lia.
  - split; [reflexivity|]. simpl. auto.
Qed.

(** C6, as the code has it.  A decode step produced a frame that is not
    discarded, and the wanted interval [o] at
    [wanted.overlap_begin(need.begin)], the first one ending after
    [need.begin], begins after the frame does: [[o.begin, frame.time.end)]
    is inserted into [done], the step counts as a change, and [frames] is
    left as it is, so nothing is stored under [frame.time.begin]. *)
Theorem partial_frame_marks_done_only (sys : System) (need : Interval)
    (needed : list Interval) (changes : nat) (keep_decoders : DecoderMap)
    (pos : Seconds) (decoder : Decoder) (a : Answers) (f : MediaFrame)
    (img : option LoadedImage) (pos' : Seconds) (o : Interval) :
  phase sys = Decoding need needed changes keep_decoders pos decoder ->
  decode_step (i_begin need) pos a = (Some f, img, pos') ->
  overlap_begin (wanted (loader sys)) (i_begin need)
    <> overlap_end (wanted (loader sys)) (i_end (time f)) ->
  deref (wanted (loader sys))
        (overlap_begin (wanted (loader sys)) (i_begin need)) = Some o ->
  sec_lt (i_begin (time f)) (i_begin o) ->
  exists sys',
    step (Decode a) sys = Some sys' /\
    done (loaded (loader sys')) =
      insert (mkInterval (i_begin o) (i_end (time f)))
             (done (loaded (loader sys))) /\
    frames (loaded (loader sys')) = frames (loaded (loader sys)) /\
    eof (loaded (loader sys')) = eof (loaded (loader sys)) /\
    wanted (loader sys') = wanted (loader sys) /\
    phase sys' =
      AtNeed needed (S changes) (map_insert pos' decoder keep_decoders).
Proof.
  intros Hph Hdec Hov Ho Hlt.
  assert (classify (i_begin need) (Some f) img (loader sys) changes
          = Some (done_insert (mkInterval (i_begin o) (i_end (time f)))
                    (loader sys), S changes)) as Hc.
  { unfold classify. apply Nat.eqb_neq in Hov. rewrite Hov, Ho.
    destruct (sec_ltb_spec (i_begin (time f)) (i_begin o));
      [reflexivity | contradiction]. }
  eexists. split.
  - unfold step. rewrite Hph. unfold finish_decode. rewrite Hdec, Hc.
    reflexivity.
  - simpl. auto.
Qed.

Lemma partial_frame_marks_done_only_witness :
  let st := mkLoader [span 5 9] None (mkLoaded [] [] None) false false [] in
  let sys := mkSystem st [] (Decoding (span 5 9) [] 0 [] (Fin 5) 1%nat) in
  let a := mkAnswers false (frame_at 4 6) (Some 100%nat) in
  exists sys',
    step (Decode a) sys = Some sys' /\
    done (loaded (loader sys')) = [span 5 6] /\
    frames (loaded (loader sys')) = [].
Proof.
  intros st sys a.
  assert (sec_lt (Fin 4) (Fin 5)) as Hlt by (simpl; lia).
  assert (overlap_begin [span 5 9] (Fin 5) <> overlap_end [span 5 9] (Fin 6))
    as Hov by discriminate.
  destruct (partial_frame_marks_done_only sys (span 5 9) [] 0 [] (Fin 5)
              1%nat a (mkFrame (span 4 6) 0%nat) (Some 100%nat) (Fin 6)
              (span 5 9) eq_refl eq_refl Hov eq_refl Hlt)
    as (sys' & Hstep & Hdone & Hframes & _).
  exists sys'. auto.
Defined.

(** C6, refuted as stated: under the request {[0, 2), [5, 9)} the decode
    step for [0, 2) gets the frame [4, 6).  The one wanted interval that
    shares an instant with the frame, [5, 9), begins after the frame does,
    yet line 200 looks at [0, 2), the interval found from [need.begin], and
    the frame is stored: [frames] gets the key 4 and [done] gets [4, 6)
    rather than [5, 6). *)
Lemma frame_before_its_wanted_interval_is_stored :
  exists sys sys',
    run up_to_decode_of_late_span initial = Some sys /\
    phase sys = Decoding (span 0 2) [span 5 9] 0 [] (Fin 0) 1%nat /\
    intersects (span 5 9) (span 4 6) /\
    (forall i, In i (wanted (loader sys)) -> intersects i (span 4 6) ->
               i = span 5 9 /\ sec_lt (Fin 4) (i_begin i)) /\
    step (Decode (mkAnswers false (frame_at 4 6) (Some 100%nat))) sys
      = Some sys' /\
    frames (loaded (loader sys')) = [(Fin 4, Some 100%nat)] /\
    done (loaded (loader sys')) = [span 4 6] /\
    done (loaded (loader sys')) <> insert (span 5 6) (done (loaded (loader sys))).
Proof.
  eexists. eexists. split; [reflexivity|]. split; [reflexivity|]. split.
  { exists (Fin 5). unfold contains. simpl. lia. }
  split.
  - simpl. intros i [<- | [<- | []]] (t & Hi & Hf).
    + exfalso. unfold contains in *. simpl in *. destruct t; simpl in *; lia.
    + split; [reflexivity | simpl; lia].
  - split; [reflexivity|]. simpl. split; [reflexivity|].
    split; [reflexivity | discriminate].
Qed.

(** ** A failing opener (C9) *)


Lemma step_done_grows act sys sys' t :
  is_set_request act = false ->
  step act sys = Some sys' ->
  covers (done (load (loader sys))) t -> covers (done (load (loader sys'))) t.
Proof.
  intros Hact Hstep Hcov.
  destruct (step_loader _ _ _ Hstep)
    as [E | [(w & n & -> & _) | [(need & ? & ? & ? & _ & _ & E)
       | (a & need & ? & c & ? & ? & ? & frame & img & ? & c' & _ & _ & _ & Hc)]]].
  - rewrite E. assumption.
  - discriminate.
  - rewrite E. simpl. apply covers_insert. auto.
  - destruct (classify_cases _ _ _ _ _ _ _ Hc)
      as [[-> _] | [(_ & -> & _) | [(f & o & _ & _ & _ & -> & _)
         | (f & _ & -> & _)]]]; simpl; try assumption;
      apply covers_insert; auto.
Qed.




(* ================================================================== *)
(** * Further properties of frame_loader.cpp *)

(** ** Invariants of the cache *)

Lemma decode_step_frame nb pos a f img pos' :
  decode_step nb pos a = (Some f, img, pos') -> next_frame a = Produces f.
Proof.
  unfold decode_step.
  destruct (negb (sec_eqb nb pos) && seek_before_throws a); [discriminate|].
  destruct (next_frame a) as [g | |]; try discriminate.
  destruct (load_image a); intros [= -> _ _]; reflexivity.
Qed.

(** X1.  In every state the loader reaches, the keys of [frames] are
    strictly ascending and [done] is canonical: ascending, with room between
    stored intervals, none of them empty. *)
Theorem cache_representation_is_kept (acts : list Action) (sys : System) :
  run acts initial = Some sys ->
  map_ok (frames (loaded (loader sys))) /\
  canonical (done (loaded (loader sys))).
Proof.
  intros Hrun. eapply run_cache_ok; [exact Hrun|].
  split; simpl; [constructor | apply canonical_nil].
Qed.

Lemma cache_representation_is_kept_witness :
  map_ok (frames (loaded (loader after_two_frames))) /\
  canonical (done (loaded (loader after_two_frames))).
Proof.
  exact (cache_representation_is_kept two_frame_stream after_two_frames
           eq_refl).
Defined.

Lemma step_keys_in_done act sys sys' :
  lasting_frames act -> step act sys = Some sys' ->
  cache_ok (load (loader sys)) ->
  keys_in_done (load (loader sys)) -> keys_in_done (load (loader sys')).
Proof.
  intros Hlast Hstep Hok Hinv.
  destruct (step_loader _ _ _ Hstep)
    as [E | [(w & n & _ & E) | [(need & ? & ? & ? & _ & _ & E)
       | (a & need & ? & c & ? & pos & ? & frame & img & ? & c'
            & -> & _ & Hdec & Hc)]]].
  - rewrite E. assumption.
  - rewrite E. destruct (IntervalSet_eq_dec w (wanted (loader sys)))
      as [Ew | Hne].
    + rewrite set_request_same by assumption. exact Hinv.
    + destruct (set_request_drops w n (loader sys) Hok Hne)
        as (_ & Hdone & Hframes & _).
      intros k Hk. apply keys_in in Hk. destruct Hk as (v & Hv).
      apply Hframes in Hv. destruct Hv as [Hv Hout]. simpl in Hout.
      apply Hdone. split; [|exact Hout].
      apply Hinv, keys_in. exists v. exact Hv.
  - rewrite E. intros k Hk. simpl in *. apply covers_insert. auto.
  - destruct (classify_cases _ _ _ _ _ _ _ Hc)
      as [[-> _] | [(_ & -> & _) | [(f & o & _ & _ & _ & -> & _)
         | (f & -> & -> & _)]]].
    + assumption.
    + exact Hinv.
    + intros k Hk. simpl in *. apply covers_insert. auto.
    + apply decode_step_frame in Hdec. simpl in Hlast. rewrite Hdec in Hlast.
      intros k Hk. simpl in *. apply covers_insert.
      apply assign_keys in Hk. destruct Hk as [-> | Hk]; [left | auto].
      destruct (time f) as [fb fe]. clear - Hlast. sec_crush.
Qed.

Lemma run_keys_in_done acts : forall sys sys',
  Forall lasting_frames acts -> run acts sys = Some sys' ->
  cache_ok (load (loader sys)) ->
  keys_in_done (load (loader sys)) -> keys_in_done (load (loader sys')).
Proof.
  induction acts as [|a acts IH]; intros sys sys' Hall; simpl.
  - intros [= <-]. auto.
  - inversion Hall as [|? ? Ha Hall']; subst.
    destruct (step a sys) as [sys1|] eqn:Hstep; [|discriminate].
    intros Hrun Hok Hinv. eapply (IH sys1); [exact Hall' | exact Hrun | |].
    + eapply step_cache_ok; eassumption.
    + eapply step_keys_in_done; eassumption.
Qed.

(** X2.  As long as every frame the decoder produces lasts
    ([time.begin < time.end]), every key of [frames] lies in an interval of
    [done], in every state the loader reaches. *)
Theorem frame_keys_stay_in_done (acts : list Action) (sys : System) :
  Forall lasting_frames acts ->
  run acts initial = Some sys ->
  forall k, In k (keys (frames (loaded (loader sys)))) ->
            covers (done (loaded (loader sys))) k.
Proof.
  intros Hall Hrun.
  apply (run_keys_in_done acts initial sys Hall Hrun).
  - split; simpl; [constructor | apply canonical_nil].
  - intros k [].
Qed.

Lemma frame_keys_stay_in_done_witness :
  Forall lasting_frames two_frame_stream /\
  covers (done (loaded (loader after_two_frames))) (Fin 1).
Proof.
  assert (Forall lasting_frames two_frame_stream) as Hall.
  { repeat constructor; simpl; lia. }
  split; [exact Hall|].
  apply (frame_keys_stay_in_done two_frame_stream after_two_frames Hall
           eq_refl).
  simpl. auto.
Defined.

Lemma step_eof_falls act sys sys' e :
  step act sys = Some sys' ->
  eof (load (loader sys)) = Some e ->
  exists e', eof (load (loader sys')) = Some e' /\ sec_le e' e.
Proof.
  intros Hstep He.
  destruct (step_loader _ _ _ Hstep)
    as [E | [(w & n & _ & E) | [(need & ? & ? & ? & _ & _ & E)
       | (a & need & ? & c & ? & pos & ? & frame & img & ? & c'
            & _ & _ & _ & Hc)]]].
  - rewrite E. exists e. split; [assumption | apply sec_le_refl].
  - rewrite E, set_request_eof. exists e.
    split; [assumption | apply sec_le_refl].
  - rewrite E. exists e. split; [assumption | apply sec_le_refl].
  - destruct (classify_cases _ _ _ _ _ _ _ Hc)
      as [[-> _] | [(_ & -> & _ & Hlt) | [(f & o & _ & _ & _ & -> & _)
         | (f & _ & -> & _)]]];
      try (exists e; split; [assumption | apply sec_le_refl]).
    exists (i_begin need). split; [reflexivity|].
    apply sec_lt_le, Hlt, He.
Qed.

(** X3.  Once the end of file is known it stays known, and it never moves
    later: along any run, a later [eof] is at or before an earlier one,
    whatever the callers and the decoder do. *)
Theorem eof_never_rises (acts : list Action) (sys sys' : System)
    (e : Seconds) :
  run acts sys = Some sys' ->
  eof (loaded (loader sys)) = Some e ->
  exists e', eof (loaded (loader sys')) = Some e' /\ sec_le e' e.
Proof.
  revert sys e. induction acts as [|a acts IH]; intros sys e; simpl.
  - intros [= <-] He. exists e. split; [assumption | apply sec_le_refl].
  - destruct (step a sys) as [sys1|] eqn:Hstep; [|discriminate].
    intros Hrun He.
    destruct (step_eof_falls _ _ _ _ Hstep He) as (e1 & He1 & Hle1).
    destruct (IH _ _ Hrun He1) as (e' & He' & Hle').
    exists e'. split; [assumption|]. clear - Hle1 Hle'. sec_arith.
Qed.

Lemma eof_never_rises_witness :
  exists e',
    eof (loaded (loader
      (mkSystem (mkLoader [span 0 9] None (mkLoaded [] [] (Some (Fin 5)))
                   false false [])
         [] (AtNeed [] 1 [])))) = Some (Fin 5) /\
    option_map (fun sys => eof (loaded (loader sys)))
      (run [Run; Run; Opener (Some 1%nat);
            Decode (mkAnswers false EndOfStream None)]
         (mkSystem (mkLoader [span 0 9] None (mkLoaded [] [] (Some (Fin 5)))
                      false false [])
            [] (AtNeed [] 1 []))) = Some (Some e') /\
    sec_le e' (Fin 5).
Proof.
  destruct (eof_never_rises
              [Run; Run; Opener (Some 1%nat);
               Decode (mkAnswers false EndOfStream None)]
              (mkSystem (mkLoader [span 0 9] None
                           (mkLoaded [] [] (Some (Fin 5))) false false [])
                 [] (AtNeed [] 1 []))
              _ (Fin 5) eq_refl eq_refl) as (e' & He' & Hle).
  exists e'. split; [reflexivity|]. split; [|exact Hle].
  simpl in He'. simpl. rewrite <- He'. reflexivity.
Defined.

(** ** What the worker does to the cache *)

Lemma assign_keeps_keys (V : Type) k (v : V) m x :
  In x (keys m) -> In x (keys (assign k v m)).
Proof.
  unfold keys. induction m as [|[k' v'] m IH]; simpl; [intros []|].
  destruct (sec_ltb k k'); [|destruct (sec_eqb_spec k k')]; simpl.
  - auto.
  - subst. auto.
  - intros [H | H]; auto.
Qed.

Lemma step_worker_grows act sys sys' :
  worker_only [act] = true ->
  step act sys = Some sys' ->
  (forall k, In k (keys (frames (load (loader sys)))) ->
             In k (keys (frames (load (loader sys'))))) /\
  (forall t, covers (wanted (loader sys')) t -> covers (wanted (loader sys)) t).
Proof.
  destruct sys as [st decs ph]. unfold step. simpl. intros Hact.
  destruct act as [w n | | | r | a]; try discriminate.
  - destruct ph as [| | needed c keep | |]; try discriminate.
    + intros [= <-]. unfold pass_start. simpl.
      destruct (shutdown st); [simpl; auto|].
      destruct (keep_end_decoders _ _).
      destruct (set_empty _); simpl; auto.
    + destruct (wakeup st); [|discriminate].
      intros [= <-]. simpl. auto.
    + destruct needed as [|need needed].
      * intros [= <-]. unfold pass_end, fire_notify. simpl.
        destruct c; [auto|]. destruct (notify st); simpl; auto.
      * destruct (select_decoder _ _) as [[[pos d] rest]|]; [|discriminate].
        intros [= <-]. simpl. auto.
  - destruct ph as [| | needed c keep | |]; try discriminate.
    destruct needed as [|need needed]; [discriminate|].
    destruct (select_decoder _ _); [discriminate|].
    intros [= <-]. destruct r as [d|]; simpl; auto.
  - destruct ph as [| | | need needed c keep pos d |]; try discriminate.
    unfold finish_decode.
    destruct (decode_step (i_begin need) pos a) as [[frame img] pos'].
    destruct (classify _ _ _ _ _) as [[st' c']|] eqn:Hc; [|discriminate].
    intros [= <-]. simpl.
    destruct (classify_cases _ _ _ _ _ _ _ Hc)
      as [[-> _] | [(_ & -> & _) | [(f & o & _ & _ & _ & -> & _)
         | (f & _ & -> & _)]]]; simpl; auto.
    + split; [auto|]. intros t Ht. apply covers_erase in Ht. tauto.
    + split; [|auto]. intros k. apply assign_keeps_keys.
Qed.

(** X4.  Left to itself the worker drops nothing and asks for nothing new:
    along a run without calls from the owner, every frame key stays in
    [frames], every instant covered by [done] stays covered, and [wanted]
    covers no instant it did not cover before. *)
Theorem worker_only_adds_to_cache (acts : list Action) (sys sys' : System) :
  worker_only acts = true ->
  run acts sys = Some sys' ->
  (forall k, In k (keys (frames (loaded (loader sys)))) ->
             In k (keys (frames (loaded (loader sys'))))) /\
  (forall t, covers (done (loaded (loader sys))) t ->
             covers (done (loaded (loader sys'))) t) /\
  (forall t, covers (wanted (loader sys')) t -> covers (wanted (loader sys)) t).
Proof.
  revert sys. induction acts as [|a acts IH]; intros sys; simpl.
  - intros _ [= <-]. auto.
  - intros Hall. apply andb_prop in Hall. destruct Hall as [Ha Hall].
    destruct (step a sys) as [sys1|] eqn:Hstep; [|discriminate].
    intros Hrun.
    destruct (IH sys1 Hall Hrun) as (Hk & Hd & Hw).
    destruct (step_worker_grows a sys sys1) as [Hk1 Hw1];
      [simpl; rewrite Ha; reflexivity | exact Hstep |].
    split; [auto|]. split; [|auto].
    intros t Ht. apply Hd.
    eapply step_done_grows; [|exact Hstep | exact Ht].
    destruct a; try reflexivity; discriminate.
Qed.

Lemma worker_only_adds_to_cache_witness :
  let sys := mkSystem
               (mkLoader [span 0 9] None
                  (mkLoaded [(Fin 0, Some 100%nat)] [span 0 1] None)
                  false false [])
               [] (AtNeed [span 1 9] 0 [(Fin 1, 1%nat)]) in
  let acts := [Opener (Some 2%nat);
               Decode (mkAnswers false (frame_at 1 2) (Some 101%nat)); Run] in
  exists sys',
    run acts sys = Some sys' /\
    In (Fin 0) (keys (frames (loaded (loader sys')))) /\
    frames (loaded (loader sys'))
      = [(Fin 0, Some 100%nat); (Fin 1, Some 101%nat)].
Proof.
  intros sys acts. eexists. split; [reflexivity|]. split; [|reflexivity].
  refine (proj1 (worker_only_adds_to_cache acts sys _ eq_refl eq_refl)
            (Fin 0) _).
  simpl. auto.
Defined.

Lemma sorted_head_least (V : Type) k (v : V) m e :
  map_ok ((k, v) :: m) -> In e m -> sec_lt k (fst e).
Proof.
  unfold map_ok, keys. simpl. intros Hs Hin.
  apply StronglySorted_inv in Hs. destruct Hs as [_ Hall].
  rewrite Forall_forall in Hall. apply Hall, in_map, Hin.
Qed.

Lemma map_ok_tail (V : Type) (e : Seconds * V) m : map_ok (e :: m) -> map_ok m.
Proof.
  unfold map_ok, keys. simpl. intros Hs.
  apply StronglySorted_inv in Hs. tauto.
Qed.

Lemma assign_entries (V : Type) k (v : V) m k' v' :
  map_ok m ->
  (In (k', v') (assign k v m) <->
   (k' = k /\ v' = v) \/ (k' <> k /\ In (k', v') m)).
Proof.
  induction m as [|[k0 v0] m IH]; simpl; intros Hok.
  - split.
    + intros [[= <- <-] | []]. auto.
    + intros [[-> ->] | [_ []]]. auto.
  - pose proof (sorted_head_least _ _ _ _ (k', v') Hok) as Hleast.
    simpl in Hleast.
    destruct (sec_ltb_spec k k0) as [Hlt | Hge].
    + simpl. split.
      * intros [[= <- <-] | [[= <- <-] | Hin]]; auto.
        -- right. split; [|auto]. intros ->. apply (sec_lt_irrefl _ Hlt).
        -- right. split; [|auto]. intros ->. specialize (Hleast Hin).
           clear - Hlt Hleast. sec_arith.
      * intros [[-> ->] | [Hne H]]; auto.
    + destruct (sec_eqb_spec k k0) as [<- | Hne]; simpl.
      * split.
        -- intros [[= <- <-] | Hin]; auto.
           right. split; [|auto]. intros ->. specialize (Hleast Hin).
           apply (sec_lt_irrefl _ Hleast).
        -- intros [[-> ->] | [Hne [[= E1 E2] | Hin]]]; auto. congruence.
      * rewrite IH by (eapply map_ok_tail; exact Hok). split.
        -- intros [[= <- <-] | [H | [Hne' Hin]]]; auto.
        -- intros [H | [Hne' [[= <- <-] | Hin]]]; auto.
Qed.

(** X5.  A decode step produced a frame that is not discarded, and the
    wanted interval [o] at [wanted.overlap_begin(need.begin)], the first
    one ending after [need.begin], begins at or before the frame:
    [frame.time] is inserted into [done] and the image is stored under
    [frame.time.begin], replacing whatever was stored there; every other
    entry of [frames] stays as it was, and the step counts as a change. *)
Theorem wanted_frame_is_stored (sys : System) (need : Interval)
    (needed : list Interval) (changes : nat) (keep_decoders : DecoderMap)
    (pos : Seconds) (decoder : Decoder) (a : Answers) (f : MediaFrame)
    (img : option LoadedImage) (pos' : Seconds) (o : Interval) :
  map_ok (frames (loaded (loader sys))) ->
  phase sys = Decoding need needed changes keep_decoders pos decoder ->
  decode_step (i_begin need) pos a = (Some f, img, pos') ->
  overlap_begin (wanted (loader sys)) (i_begin need)
    <> overlap_end (wanted (loader sys)) (i_end (time f)) ->
  deref (wanted (loader sys))
        (overlap_begin (wanted (loader sys)) (i_begin need)) = Some o ->
  sec_le (i_begin o) (i_begin (time f)) ->
  exists sys',
    step (Decode a) sys = Some sys' /\
    done (loaded (loader sys')) = insert (time f) (done (loaded (loader sys))) /\
    In (i_begin (time f), img) (frames (loaded (loader sys'))) /\
    (forall v, In (i_begin (time f), v) (frames (loaded (loader sys'))) ->
               v = img) /\
    (forall k v, k <> i_begin (time f) ->
       (In (k, v) (frames (loaded (loader sys'))) <->
        In (k, v) (frames (loaded (loader sys))))) /\
    map_ok (frames (loaded (loader sys'))) /\
    eof (loaded (loader sys')) = eof (loaded (loader sys)) /\
    wanted (loader sys') = wanted (loader sys) /\
    phase sys' =
      AtNeed needed (S changes) (map_insert pos' decoder keep_decoders).
Proof.
  intros Hok Hph Hdec Hov Ho Hle.
  assert (classify (i_begin need) (Some f) img (loader sys) changes
          = Some (frames_assign (i_begin (time f)) img
                    (done_insert (time f) (loader sys)), S changes)) as Hc.
  { unfold classify. apply Nat.eqb_neq in Hov. rewrite Hov, Ho.
    destruct (sec_ltb_spec (i_begin (time f)) (i_begin o)) as [Hlt | _];
      [|reflexivity].
    exfalso. revert Hlt Hle.
    generalize (i_begin (time f)) (i_begin o). clear. intros x y. sec_arith. }
  eexists. split.
  - unfold step. rewrite Hph. unfold finish_decode. rewrite Hdec, Hc.
    reflexivity.
  - simpl. split; [reflexivity|].
    split; [apply assign_entries; auto|].
    split.
    { intros v Hv. apply assign_entries in Hv; [|exact Hok].
      destruct Hv as [[_ ->] | [Hne _]]; [reflexivity | congruence]. }
    split.
    { intros k v Hne. rewrite assign_entries by exact Hok. tauto. }
    split; [apply assign_ok, Hok|]. auto.
Qed.

Lemma wanted_frame_is_stored_witness :
  let st := mkLoader [span 0 9] None
              (mkLoaded [(Fin 0, Some 100%nat); (Fin 1, None)]
                        [span 0 2] None) false false [] in
  let sys := mkSystem st [] (Decoding (span 1 9) [] 0 [] (Fin 1) 1%nat) in
  let a := mkAnswers false (frame_at 1 2) (Some 101%nat) in
  exists sys',
    step (Decode a) sys = Some sys' /\
    frames (loaded (loader sys'))
      = [(Fin 0, Some 100%nat); (Fin 1, Some 101%nat)] /\
    In (Fin 1, Some 101%nat) (frames (loaded (loader sys'))).
Proof.
  intros st sys a.
  assert (map_ok (frames (loaded (loader sys)))) as Hok.
  { unfold map_ok; simpl. repeat constructor; simpl; lia. }
  assert (overlap_begin [span 0 9] (Fin 1) <> overlap_end [span 0 9] (Fin 2))
    as Hov by discriminate.
  assert (sec_le (Fin 0) (Fin 1)) as Hle by (simpl; lia).
  destruct (wanted_frame_is_stored sys (span 1 9) [] 0 [] (Fin 1) 1%nat a
              (mkFrame (span 1 2) 0%nat) (Some 101%nat) (Fin 2) (span 0 9)
              Hok eq_refl eq_refl Hov eq_refl Hle)
    as (sys' & Hstep & _ & Hin & _).
  exists sys'. split; [exact Hstep|]. split; [|exact Hin].
  injection Hstep as <-. reflexivity.
Defined.

Lemma sec_le_max_l a b : sec_le a (sec_max a b).
Proof. sec_arith. Qed.

Lemma sec_le_max_r a b : sec_le b (sec_max a b).
Proof. sec_arith. Qed.

(** X6.  The bookkeeping of one decode step.  No seek is issued when the
    decoder already stands at [need_begin]; a throwing seek leaves no frame
    and the recorded position as it was; in every other case the recorded
    position ends at or after [need_begin], and at or after the end of a
    frame that was produced and uploaded; and there is never an image
    without a frame. *)
Theorem decode_step_bookkeeping (need_begin pos : Seconds) (a : Answers) :
  let '(frame, img, pos') := decode_step need_begin pos a in
  (pos = need_begin ->
   decode_step need_begin pos a
     = decode_step need_begin pos
         (mkAnswers (negb (seek_before_throws a)) (next_frame a)
                    (load_image a))) /\
  (pos <> need_begin -> seek_before_throws a = true ->
   frame = None /\ img = None /\ pos' = pos) /\
  (pos = need_begin \/ seek_before_throws a = false ->
   sec_le need_begin pos') /\
  (forall f i, frame = Some f -> img = Some i ->
               sec_le (i_end (time f)) pos' /\ next_frame a = Produces f) /\
  (frame = None -> img = None).
Proof.
  destruct (decode_step need_begin pos a) as [[frame img] pos'] eqn:Hd.
  split; [|split; [|split; [|split]]].
  - intros ->. rewrite <- Hd. unfold decode_step. simpl.
    destruct (sec_eqb_spec need_begin need_begin); [|congruence].
    reflexivity.
  - intros Hne Hthrow. revert Hd. unfold decode_step. rewrite Hthrow.
    destruct (sec_eqb_spec need_begin pos); [congruence|]. simpl.
    intros [= <- <- <-]. auto.
  - intros Hcase. revert Hd. unfold decode_step.
    destruct (sec_eqb_spec need_begin pos) as [<- | Hne]; simpl.
    + destruct (next_frame a) as [f | |]; try (intros [= _ _ <-]; apply sec_le_refl).
      destruct (load_image a); intros [= _ _ <-]; [|apply sec_le_refl].
      apply sec_le_max_l.
    + destruct Hcase as [-> | ->]; [congruence|].
      destruct (next_frame a) as [f | |]; try (intros [= _ _ <-]; apply sec_le_refl).
      destruct (load_image a); intros [= _ _ <-]; [|apply sec_le_refl].
      apply sec_le_max_l.
  - intros f i -> ->. split; [|eapply decode_step_frame; exact Hd].
    revert Hd. unfold decode_step.
    destruct (negb (sec_eqb need_begin pos) && seek_before_throws a);
      [discriminate|].
    destruct (next_frame a) as [g | |]; try discriminate.
    destruct (load_image a); [|discriminate].
    intros H. injection H as Hg _ Hp. subst. apply sec_le_max_r.
  - intros ->. revert Hd. unfold decode_step.
    destruct (negb (sec_eqb need_begin pos) && seek_before_throws a);
      [intros [= <- _]; reflexivity|].
    destruct (next_frame a) as [g | |]; try (intros [= <- _]; reflexivity).
    destruct (load_image a); discriminate.
Qed.

Lemma decode_step_bookkeeping_witness :
  decode_step (Fin 3) (Fin 1) (mkAnswers false (frame_at 2 4) (Some 9%nat))
    = (Some (mkFrame (span 2 4) 0%nat), Some 9%nat, Fin 4) /\
  sec_le (Fin 3) (Fin 4).
Proof.
  split; [reflexivity|].
  exact (proj1 (proj2 (proj2
    (decode_step_bookkeeping (Fin 3) (Fin 1)
       (mkAnswers false (frame_at 2 4) (Some 9%nat))))) (or_intror eq_refl)).
Defined.

(** ** Decoders kept for the next pass *)





Lemma map_insert_present (V : Type) k (v : V) m :
  map_ok m -> In k (keys m) -> map_insert k v m = m.
Proof.
  induction m as [|[k' v'] m IH]; simpl; intros Hok Hin; [destruct Hin|].
  destruct (sec_ltb_spec k k') as [Hlt | Hge].
  - exfalso. destruct Hin as [-> | Hin]; [apply (sec_lt_irrefl _ Hlt)|].
    unfold keys in Hin. apply in_map_iff in Hin.
    destruct Hin as (e & <- & Hin).
    pose proof (sorted_head_least _ _ _ _ e Hok Hin) as Hl.
    clear - Hlt Hl. destruct e as [x y]. simpl in *. sec_arith.
  - destruct (sec_eqb_spec k k') as [-> | Hne]; [reflexivity|].
    f_equal. apply IH; [eapply map_ok_tail; exact Hok|].
    destruct Hin as [-> | Hin]; [congruence | exact Hin].
Qed.





(** X8.  A decoder comes back from its decode step to a position that
    [keep_decoders] already holds: [insert] leaves the map as it is, so the
    returning decoder is dropped and the one kept before stays. *)
Theorem returning_decoder_dropped_on_collision (sys : System)
    (need : Interval) (needed : list Interval) (changes : nat)
    (keep_decoders : DecoderMap) (pos : Seconds) (decoder : Decoder)
    (a : Answers) (sys' : System) :
  map_ok keep_decoders ->
  phase sys = Decoding need needed changes keep_decoders pos decoder ->
  In (snd (decode_step (i_begin need) pos a)) (keys keep_decoders) ->
  step (Decode a) sys = Some sys' ->
  exists changes',
    phase sys' = AtNeed needed changes' keep_decoders /\
    decoders sys' = decoders sys.
Proof.
  intros Hok Hph Hin Hstep. unfold step in Hstep. rewrite Hph in Hstep.
  unfold finish_decode in Hstep.
  destruct (decode_step (i_begin need) pos a) as [[frame img] pos'].
  simpl in Hin.
  destruct (classify _ _ _ _ _) as [[st' c']|]; [|discriminate].
  injection Hstep as <-. simpl. exists c'.
  rewrite map_insert_present by assumption. auto.
Qed.

Lemma returning_decoder_dropped_on_collision_witness :
  let st := mkLoader [span 0 6] None (mkLoaded [] [] None) false false [] in
  let sys := mkSystem st []
               (Decoding (span 0 6) [] 0 [(Fin 6, 1%nat)] (Fin 0) 2%nat) in
  let a := mkAnswers false (frame_at 0 6) (Some 100%nat) in
  exists sys' changes',
    step (Decode a) sys = Some sys' /\
    phase sys' = AtNeed [] changes' [(Fin 6, 1%nat)].
Proof.
  intros st sys a.
  assert (map_ok [(Fin 6, 1%nat)]) as Hok
    by (unfold map_ok; simpl; repeat constructor).
  destruct (returning_decoder_dropped_on_collision sys (span 0 6) [] 0
              [(Fin 6, 1%nat)] (Fin 0) 2%nat a _ Hok eq_refl
              (or_introl eq_refl) eq_refl) as (c' & Hph & _).
  eexists. exists c'. split; [reflexivity | exact Hph].
Defined.

(** ** When the worker waits *)

Lemma compute_needed_covers st t :
  covers (compute_needed st) t <->
  covers (wanted st) t /\ ~ covers (done (load st)) t /\
  (forall e, eof (load st) = Some e -> sec_lt t e).
Proof.
  unfold compute_needed. rewrite covers_erase_set.
  destruct (eof (load st)) as [e|].
  - rewrite covers_erase. split.
    + intros [[(i & Hin & Hc) Hout] Hnot].
      split; [exists i; auto|]. split; [exact Hnot|].
      intros e' [= <-]. clear - Hc Hout. unfold forever in *. sec_arith.
    + intros (Hw & Hnot & Hlt). specialize (Hlt e eq_refl).
      split; [|exact Hnot]. split; [exact Hw|].
      clear - Hlt. unfold forever in *. sec_arith.
  - split; [intros [Hw Hnot] | intros (Hw & Hnot & _)]; auto.
    repeat split; auto. discriminate.
Qed.

Lemma compute_needed_nonempty st :
  all_nonempty (wanted st) -> all_nonempty (compute_needed st).
Proof.
  intros H. unfold compute_needed. apply erase_set_nonempty.
  destruct (eof (load st)); [apply erase_nonempty|]; exact H.
Qed.

Lemma covers_nothing_nil s :
  all_nonempty s -> (forall t, ~ covers s t) -> s = [].
Proof.
  intros Hne Hnone. destruct s as [|i s]; [reflexivity|].
  inversion Hne as [|? ? Hi _]; subst.
  destruct (Hnone (i_begin i)). exists i. split; [simpl; auto|].
  clear - Hi. sec_arith.
Qed.

(** X9.  At its loop test, with no shutdown asked, the worker goes to wait
    exactly when nothing is needed: every wanted instant is covered by
    [done] or lies at or after a known [eof].  Otherwise it starts a pass
    over the needed intervals, which cover exactly the wanted instants that
    are not done and lie before [eof].  Neither way touches the loader's
    state; a worker that goes to wait holds on only to the decoders set
    aside by [keep_end_decoders]. *)
Theorem worker_waits_iff_nothing_needed (sys : System) :
  phase sys = AtLoopTest ->
  shutdown (loader sys) = false ->
  all_nonempty (wanted (loader sys)) ->
  exists sys',
    step Run sys = Some sys' /\
    loader sys' = loader sys /\
    (phase sys' = Waiting <->
     forall t, covers (wanted (loader sys)) t ->
               covers (done (loaded (loader sys))) t \/
               exists e, eof (loaded (loader sys)) = Some e /\ sec_le e t) /\
    (phase sys' = Waiting ->
     decoders sys'
       = snd (keep_end_decoders (wanted (loader sys)) (decoders sys))) /\
    (phase sys' = Waiting \/
     exists need needed keep_decoders,
       phase sys' = AtNeed (need :: needed) 0 keep_decoders /\
       forall t, covers (need :: needed) t <->
                 covers (wanted (loader sys)) t /\
                 ~ covers (done (loaded (loader sys))) t /\
                 forall e, eof (loaded (loader sys)) = Some e -> sec_lt t e).
Proof.
  intros Hph Hshut Hne. unfold loaded.
  exists (pass_start sys). split; [unfold step; rewrite Hph; reflexivity|].
  unfold pass_start. rewrite Hshut.
  destruct (keep_end_decoders _ _) as [decs keep].
  pose proof (compute_needed_covers (loader sys)) as Hcov.
  pose proof (compute_needed_nonempty (loader sys) Hne) as Hne'.
  destruct (compute_needed (loader sys)) as [|need needed] eqn:E; simpl.
  - split; [reflexivity|]. split; [|auto]. split; [|reflexivity].
    intros _ t Ht.
    destruct (covers_dec (done (load (loader sys))) t) as [Hd | Hd]; [auto|].
    right. destruct (eof (load (loader sys))) as [e|].
    + exists e. split; [reflexivity|].
      destruct (sec_le_or_lt e t) as [Hle | Hlt]; [exact Hle|].
      destruct (covers_nil t). apply Hcov. repeat split; auto.
      intros e' [= <-]. exact Hlt.
    + destruct (covers_nil t). apply Hcov. repeat split; auto. discriminate.
  - split; [reflexivity|]. split.
    + split; [discriminate|]. intros Hall. exfalso.
      inversion Hne' as [|? ? Hi _]; subst.
      assert (covers (need :: needed) (i_begin need)) as Hc.
      { exists need. split; [simpl; auto|]. clear - Hi. sec_arith. }
      apply Hcov in Hc. destruct Hc as (Hw & Hnd & Hlt).
      destruct (Hall _ Hw) as [Hd | (e & He & Hle)]; [auto|].
      specialize (Hlt e He). clear - Hlt Hle. sec_arith.
    + split; [discriminate|].
      right. exists need, needed, keep. split; [reflexivity | exact Hcov].
Qed.

Lemma worker_waits_iff_nothing_needed_witness :
  let st := mkLoader [span 0 9] None
              (mkLoaded [] [span 0 5] (Some (Fin 5))) false false [] in
  exists sys',
    step Run (mkSystem st [] AtLoopTest) = Some sys' /\
    phase sys' = Waiting.
Proof.
  intros st.
  assert (all_nonempty (wanted st)) as Hne
    by (repeat constructor; simpl; lia).
  destruct (worker_waits_iff_nothing_needed (mkSystem st [] AtLoopTest)
              eq_refl eq_refl Hne) as (sys' & Hstep & _).
  exists sys'. split; [exact Hstep|].
  injection Hstep as <-. reflexivity.
Defined.

(** ** Signals and changes *)

(** X10.  Every [set()] the loader ever makes.  A step leaves the history
    of signals as it is, or it is a [set_request] with a changed request or
    the destructor, setting [wakeup] once, or it is the end of a pass with
    [changes > 0], setting the stored [notify] once.  So the worker never
    sets [wakeup], no call from the owner sets [notify], and a pass without
    changes sets nothing. *)
Theorem signals_set_by_a_step (act : Action) (sys sys' : System) :
  step act sys = Some sys' ->
  events (loader sys') = events (loader sys) \/
  (events (loader sys') = WakeupSet :: events (loader sys) /\
   ((exists w n, act = CallSetRequest w n /\ w <> wanted (loader sys)) \/
    act = CallDestructor)) \/
  (exists s changes keep_decoders,
      act = Run /\ phase sys = AtNeed [] (S changes) keep_decoders /\
      notify (loader sys) = Some s /\
      events (loader sys') = NotifySet s :: events (loader sys)).
Proof.
  destruct sys as [st decs ph]. unfold step. simpl.
  destruct act as [w n | | | r | a].
  - destruct (mutex_free ph && negb (shutdown st)); [|discriminate].
    intros [= <-]. simpl.
    destruct (IntervalSet_eq_dec w (wanted st)) as [E | Hne].
    + left. rewrite set_request_same by assumption. reflexivity.
    + right; left. rewrite set_request_differs by assumption.
      split; [reflexivity|]. left. eauto.
  - destruct (mutex_free ph && negb (shutdown st)); [|discriminate].
    intros [= <-]. right; left. simpl. auto.
  - destruct ph as [| | needed c keep | |]; try discriminate.
    + intros [= <-]. left. unfold pass_start. simpl.
      destruct (shutdown st); [reflexivity|].
      destruct (keep_end_decoders _ _).
      destruct (set_empty _); reflexivity.
    + destruct (wakeup st); [|discriminate].
      intros [= <-]. left. reflexivity.
    + destruct needed as [|need needed].
      * intros [= <-]. unfold pass_end, fire_notify. simpl.
        destruct c as [|c]; [left; reflexivity|].
        destruct (notify st) as [s|] eqn:Hn; [|left; reflexivity].
        right; right. exists s, c, keep. auto.
      * destruct (select_decoder _ _) as [[[pos d] rest]|]; [|discriminate].
        intros [= <-]. left. reflexivity.
  - destruct ph as [| | needed c keep | |]; try discriminate.
    destruct needed as [|need needed]; [discriminate|].
    destruct (select_decoder _ _); [discriminate|].
    intros [= <-]. left. destruct r as [d|]; reflexivity.
  - destruct ph as [| | | need needed c keep pos d |]; try discriminate.
    unfold finish_decode.
    destruct (decode_step (i_begin need) pos a) as [[frame img] pos'].
    destruct (classify _ _ _ _ _) as [[st' c']|] eqn:Hc; [|discriminate].
    intros [= <-]. left. simpl.
    apply (classify_signals _ _ _ _ _ _ _ Hc).
Qed.

Lemma signals_set_by_a_step_witness :
  let st := mkLoader [span 0 1] (Some 7%nat) (mkLoaded [] [span 0 1] None)
              false false [] in
  step Run (mkSystem st [] (AtNeed [] 1 [])) =
    Some (mkSystem (notify_set 7%nat st) [] AtLoopTest) /\
  (events (notify_set 7%nat st) = events st \/
   (events (notify_set 7%nat st) = WakeupSet :: events st /\
    ((exists w n, Run = CallSetRequest w n /\ w <> wanted st) \/
     Run = CallDestructor)) \/
   (exists s changes keep_decoders,
       Run = Run /\ AtNeed [] 1 [] = AtNeed [] (S changes) keep_decoders /\
       notify st = Some s /\
       events (notify_set 7%nat st) = NotifySet s :: events st)).
Proof.
  intros st. split; [reflexivity|].
  exact (signals_set_by_a_step Run (mkSystem st [] (AtNeed [] 1 []))
           (mkSystem (notify_set 7%nat st) [] AtLoopTest) eq_refl).
Defined.

(** X11.  Every change is counted.  A decode step leaves [changes] as it
    was or adds one, and when it leaves it as it was it has left [wanted],
    the cache and the stored signal untouched; a failing opener always
    counts.  So whatever a pass does to the loader's state is followed by
    [notify], if one is stored. *)
Theorem every_change_is_counted (sys sys' : System) (need : Interval)
    (needed : list Interval) (changes : nat) (keep_decoders : DecoderMap) :
  (forall pos decoder a,
      phase sys = Decoding need needed changes keep_decoders pos decoder ->
      step (Decode a) sys = Some sys' ->
      exists changes' keep',
        phase sys' = AtNeed needed changes' keep' /\
        (changes' = changes \/ changes' = S changes) /\
        (changes' = changes -> loader sys' = loader sys)) /\
  (phase sys = AtNeed (need :: needed) changes keep_decoders ->
   step (Opener None) sys = Some sys' ->
   phase sys' = AtNeed needed (S changes) keep_decoders).
Proof.
  split.
  - intros pos d a Hph Hstep. unfold step in Hstep. rewrite Hph in Hstep.
    unfold finish_decode in Hstep.
    destruct (decode_step (i_begin need) pos a) as [[frame img] pos'].
    destruct (classify _ _ _ _ _) as [[st' c']|] eqn:Hc; [|discriminate].
    injection Hstep as <-. simpl. exists c'. eexists. split; [reflexivity|].
    destruct (classify_cases _ _ _ _ _ _ _ Hc)
      as [[-> ->] | [(_ & _ & -> & _) | [(f & o & _ & _ & _ & _ & ->)
         | (f & _ & _ & ->)]]]; (split; [auto|]); try reflexivity;
      intros Habs; exfalso; lia.
  - intros Hph Hstep. unfold step in Hstep. rewrite Hph in Hstep.
    destruct (select_decoder _ _); [discriminate|].
    injection Hstep as <-. reflexivity.
Qed.

Lemma every_change_is_counted_witness :
  let st := mkLoader [span 0 1] None (mkLoaded [] [] None) false false [] in
  let sys := mkSystem st [] (Decoding (span 5 9) [] 0 [] (Fin 5) 1%nat) in
  let a := mkAnswers false (frame_at 5 6) (Some 100%nat) in
  exists sys' changes' keep',
    step (Decode a) sys = Some sys' /\
    phase sys' = AtNeed [] changes' keep' /\
    (changes' = 0%nat -> loader sys' = st).
Proof.
  intros st sys a.
  pose (sys' := mkSystem st [] (AtNeed [] 0 [(Fin 6, 1%nat)])).
  destruct (proj1 (every_change_is_counted sys sys' (span 5 9) [] 0 [])
              (Fin 5) 1%nat a eq_refl eq_refl)
    as (c' & keep' & Hph & _ & Hsame).
  exists sys', c', keep'. split; [reflexivity|]. split; [exact Hph|].
  exact Hsame.
Defined.

(** ** Shutdown *)

(** X12.  The destructor on a waiting worker: the worker wakes, meets the
    [shutdown] flag at its loop test and ends, without touching [wanted] or
    the cache and without setting [notify]; the decoders it held go with
    the thread. *)
Theorem destructor_ends_waiting_worker (sys : System) :
  phase sys = Waiting ->
  shutdown (loader sys) = false ->
  exists sys',
    run [CallDestructor; Run; Run] sys = Some sys' /\
    phase sys' = Ended /\
    loaded (loader sys') = loaded (loader sys) /\
    wanted (loader sys') = wanted (loader sys) /\
    decoders sys' = [] /\
    events (loader sys') = WakeupSet :: events (loader sys).
Proof.
  destruct sys as [st decs ph]. simpl. intros -> Hshut.
  eexists. split.
  - unfold step. simpl. rewrite Hshut. simpl. reflexivity.
  - simpl. auto.
Qed.

Lemma destructor_ends_waiting_worker_witness :
  let st := mkLoader [span 0 1] None
              (mkLoaded [(Fin 0, Some 100%nat)] [span 0 1] None)
              false false [] in
  exists sys',
    run [CallDestructor; Run; Run] (mkSystem st [(Fin 1, 1%nat)] Waiting)
      = Some sys' /\
    phase sys' = Ended /\
    loaded (loader sys') = loaded st /\
    decoders sys' = [].
Proof.
  intros st.
  destruct (destructor_ends_waiting_worker
              (mkSystem st [(Fin 1, 1%nat)] Waiting) eq_refl eq_refl)
    as (sys' & Hrun & Hph & Hload & _ & Hdecs & _).
  exists sys'. auto.
Defined.

Lemma classify_with_shutdown b nb frame img st c :
  classify nb frame img
    (mkLoader (wanted st) (notify st) (load st) b (wakeup st) (events st)) c
  = option_map
      (fun r => (mkLoader (wanted (fst r)) (notify (fst r)) (load (fst r)) b
                          (wakeup (fst r)) (events (fst r)), snd r))
      (classify nb frame img st c).
Proof.
  unfold classify. simpl. destruct frame as [f|].
  - destruct (Nat.eqb _ _); [reflexivity|].
    destruct (deref _ _); [|reflexivity].
    destruct (sec_ltb _ _); reflexivity.
  - destruct (eof (load st)); [|reflexivity].
    destruct (sec_ltb _ _); [reflexivity|].
    destruct (sec_eqb _ _); reflexivity.
Qed.

(** X13.  The worker reads [shutdown] at its loop test and nowhere else:
    from any other place each of its steps goes the same way whether the
    flag is set or not, so a pass under way is carried to its end (decoders
    are still sought and opened, frames decoded and stored); and the thread
    ends only by a step from the loop test with the flag set. *)
Theorem shutdown_is_read_at_loop_test_only (act : Action) (sys : System)
    (b : bool) :
  (worker_only [act] = true -> phase sys <> AtLoopTest ->
   step act (with_shutdown b sys)
     = option_map (with_shutdown b) (step act sys)) /\
  (forall sys', step act sys = Some sys' ->
                phase sys' = Ended -> phase sys <> Ended ->
                act = Run /\ phase sys = AtLoopTest /\
                shutdown (loader sys) = true /\
                loader sys' = loader sys).
Proof.
  split.
  - destruct sys as [st decs ph]. unfold with_shutdown, step. simpl.
    intros Hact Hph.
    destruct act as [w n | | | r | a]; try discriminate.
    + destruct ph as [| | needed c keep | |]; try reflexivity.
      * congruence.
      * destruct (wakeup st); reflexivity.
      * destruct needed as [|need needed].
        -- unfold pass_end, fire_notify. simpl.
           destruct c; [reflexivity|].
           destruct (notify st) eqn:Hn; unfold notify_set; simpl;
             rewrite ?Hn; reflexivity.
        -- destruct (select_decoder _ _) as [[[pos d] rest]|]; reflexivity.
    + destruct ph as [| | needed c keep | |]; try reflexivity.
      destruct needed as [|need needed]; [reflexivity|].
      destruct (select_decoder _ _); [reflexivity|].
      destruct r; reflexivity.
    + destruct ph as [| | | need needed c keep pos d |]; try reflexivity.
      unfold finish_decode. simpl.
      destruct (decode_step (i_begin need) pos a) as [[frame img] pos'].
      rewrite classify_with_shutdown.
      destruct (classify _ _ _ st c) as [[st' c']|]; reflexivity.
  - destruct sys as [st decs ph]. unfold step. simpl. intros sys'.
    destruct act as [w n | | | r | a].
    + destruct (mutex_free ph && negb (shutdown st)); [|discriminate].
      intros [= <-]. simpl. congruence.
    + destruct (mutex_free ph && negb (shutdown st)); [|discriminate].
      intros [= <-]. simpl. congruence.
    + destruct ph as [| | needed c keep | |]; try discriminate.
      * intros [= <-]. unfold pass_start. simpl.
        destruct (shutdown st); [auto|].
        destruct (keep_end_decoders _ _).
        destruct (set_empty _); discriminate.
      * destruct (wakeup st); [|discriminate]. intros [= <-]. discriminate.
      * destruct needed as [|need needed].
        -- intros [= <-]. discriminate.
        -- destruct (select_decoder _ _) as [[[pos d] rest]|];
             [|discriminate].
           intros [= <-]. discriminate.
    + destruct ph as [| | needed c keep | |]; try discriminate.
      destruct needed as [|need needed]; [discriminate|].
      destruct (select_decoder _ _); [discriminate|].
      intros [= <-]. destruct r; discriminate.
    + destruct ph as [| | | need needed c keep pos d |]; try discriminate.
      unfold finish_decode.
      destruct (decode_step (i_begin need) pos a) as [[frame img] pos'].
      destruct (classify _ _ _ _ _) as [[st' c']|]; [|discriminate].
      intros [= <-]. discriminate.
Qed.

Lemma shutdown_is_read_at_loop_test_only_witness :
  let st := mkLoader [span 0 9] None (mkLoaded [] [] None) true true
              [WakeupSet] in
  let sys := mkSystem st [] (AtNeed [span 0 9] 0 []) in
  step (Opener (Some 1%nat)) sys
    = Some (mkSystem st [] (Decoding (span 0 9) [] 0 [] zero_seconds 1%nat)).
Proof.
  intros st sys.
  exact (proj1 (shutdown_is_read_at_loop_test_only (Opener (Some 1%nat))
                  (mkSystem (mkLoader [span 0 9] None (mkLoaded [] [] None)
                               false true [WakeupSet])
                     [] (AtNeed [span 0 9] 0 [])) true)
           eq_refl ltac:(discriminate)).
Defined.

(** ** set_request, composed *)

Lemma no_entries_nil (A : Type) (l : list A) :
  (forall x, ~ In x l) -> l = [].
Proof.
  destruct l as [|x l]; [reflexivity|].
  intros H. destruct (H x). simpl. auto.
Qed.

(** X14.  Asking for nothing: [set_request({})] on a loader that wanted
    something empties [done], keeps [eof], and leaves in [frames] only
    entries whose key no [done] interval covered; when every key was
    covered, [frames] is emptied too.  The worker is woken. *)
Theorem set_request_nothing_clears_cache (st : Loader)
    (n : option ThreadSignal) :
  cache_ok (load st) ->
  wanted st <> [] ->
  let after := set_request [] n st in
  done (loaded after) = [] /\
  eof (loaded after) = eof (loaded st) /\
  (forall k img, In (k, img) (frames (loaded after)) <->
                 In (k, img) (frames (loaded st)) /\
                 ~ covers (done (loaded st)) k) /\
  (keys_in_done (load st) -> frames (loaded after) = []) /\
  wanted after = [] /\
  events after = WakeupSet :: events st.
Proof.
  intros Hok Hne after.
  assert ([] <> wanted st) as Hne' by congruence.
  destruct (set_request_drops [] n st Hok Hne')
    as (Herase & Hdone & Hframes & _ & _).
  assert (forall t, covers (to_erase [] (load st)) t <->
                    covers (done (load st)) t) as Hall.
  { intros t. rewrite Herase. pose proof (covers_nil t). tauto. }
  assert (forall k img, In (k, img) (frames (loaded after)) <->
            In (k, img) (frames (loaded st)) /\
            ~ covers (done (loaded st)) k) as Hleft.
  { intros k img. unfold after. rewrite (Hframes (k, img)). simpl.
    rewrite Hall. unfold loaded. tauto. }
  split.
  { apply covers_nothing_nil.
    - apply (set_request_cache_ok [] n st Hok).
    - intros t Ht. apply Hdone in Ht. rewrite Hall in Ht. tauto. }
  split; [apply set_request_eof|]. split; [exact Hleft|]. split.
  { intros Hin. apply no_entries_nil. intros [k img] He.
    apply Hleft in He. destruct He as [He Hout]. apply Hout, Hin.
    apply keys_in. exists img. exact He. }
  unfold after. rewrite set_request_differs by assumption. auto.
Qed.

Lemma set_request_nothing_clears_cache_witness :
  let st := loader after_two_frames in
  loaded (set_request [] None st) = mkLoaded [] [] (Some (Fin 2)) /\
  done (loaded (set_request [] None st)) = [].
Proof.
  intros st. split; [reflexivity|].
  assert (cache_ok (load st)) as Hok.
  { apply (run_cache_ok two_frame_stream initial after_two_frames eq_refl).
    split; simpl; [constructor | apply canonical_nil]. }
  assert (wanted st <> []) as Hne by discriminate.
  exact (proj1 (set_request_nothing_clears_cache st None Hok Hne)).
Defined.

(** X15.  Narrow, then widen: after a [set_request] that changed the
    request to [small], a [set_request] with any set covering [small]
    takes nothing more out of the cache; [done], [frames] and [eof] stay
    exactly as the first call left them. *)
Theorem narrow_then_widen_keeps_cache (st : Loader) (small big : IntervalSet)
    (n1 n2 : option ThreadSignal) :
  cache_ok (load st) ->
  small <> wanted st ->
  (forall t, covers small t -> covers big t) ->
  loaded (set_request big n2 (set_request small n1 st))
    = loaded (set_request small n1 st) /\
  wanted (set_request big n2 (set_request small n1 st)) = big.
Proof.
  intros Hok Hne Hsub. split; [|apply set_request_wanted].
  set (st1 := set_request small n1 st).
  destruct (IntervalSet_eq_dec big (wanted st1)) as [E | Hne2].
  - rewrite set_request_same by assumption. reflexivity.
  - rewrite set_request_differs by assumption. unfold loaded. simpl.
    assert (to_erase big (load st1) = []) as ->; [|reflexivity].
    apply covers_nothing_nil.
    + apply erase_set_nonempty.
      apply (set_request_cache_ok small n1 st Hok).
    + intros t Ht. unfold to_erase in Ht. apply covers_erase_set in Ht.
      destruct Ht as [Hd Hout]. apply Hout, Hsub.
      destruct (set_request_drops small n1 st Hok Hne)
        as (_ & _ & _ & Hin & _).
      apply Hin, Hd.
Qed.

Lemma narrow_then_widen_keeps_cache_witness :
  let st := loader after_two_frames in
  loaded (set_request [span 0 9] None (set_request [span 1 2] None st))
    = mkLoaded [(Fin 1, Some 101%nat)] [span 1 2] (Some (Fin 2)).
Proof.
  intros st.
  assert (cache_ok (load st)) as Hok.
  { apply (run_cache_ok two_frame_stream initial after_two_frames eq_refl).
    split; simpl; [constructor | apply canonical_nil]. }
  assert ([span 1 2] <> wanted st) as Hne by discriminate.
  assert (forall t, covers [span 1 2] t -> covers [span 0 9] t) as Hsub.
  { intros t (i & [<- | []] & Hc). exists (span 0 9).
    split; [simpl; auto|]. clear - Hc. unfold span in *. sec_crush. }
  rewrite (proj1 (narrow_then_widen_keeps_cache st [span 1 2] [span 0 9]
                    None None Hok Hne Hsub)).
  reflexivity.
Defined.

(** X16.  What the owner sees after narrowing the request.  On a loader
    whose decoder only ever produced lasting frames, right after a
    [set_request w] that changed the request every frame key of the
    snapshot lies in [w] and in an interval of [done], and [done] lies
    within [w]. *)
Theorem set_request_snapshot_within_wanted (acts : list Action)
    (sys : System) (w : IntervalSet) (n : option ThreadSignal) :
  Forall lasting_frames acts ->
  run acts initial = Some sys ->
  w <> wanted (loader sys) ->
  let after := loaded (set_request w n (loader sys)) in
  (forall k, In k (keys (frames after)) ->
             covers w k /\ covers (done after) k) /\
  (forall t, covers (done after) t -> covers w t).
Proof.
  intros Hall Hrun Hne after.
  assert (cache_ok (load initial_loader)) as Hok0
    by (split; simpl; [constructor | apply canonical_nil]).
  assert (keys_in_done (load initial_loader)) as Hin0 by (intros k []).
  pose proof (run_cache_ok acts initial sys Hrun Hok0) as Hok.
  pose proof (run_keys_in_done acts initial sys Hall Hrun Hok0 Hin0) as Hin.
  destruct (set_request_drops w n (loader sys) Hok Hne)
    as (Herase & Hdone & Hframes & Hdone_w & Hkeys).
  split; [|exact Hdone_w].
  intros k Hk.
  assert (covers (done (load (loader sys))) k) as Hcov.
  { apply Hin. apply keys_in in Hk. destruct Hk as (v & Hv).
    apply Hframes in Hv. apply keys_in. exists v. tauto. }
  split; [apply Hkeys; assumption|].
  apply Hdone. split; [exact Hcov|].
  apply keys_in in Hk. destruct Hk as (v & Hv).
  apply Hframes in Hv. tauto.
Qed.

Lemma set_request_snapshot_within_wanted_witness :
  Forall lasting_frames two_frame_stream /\
  [span 1 3] <> wanted (loader after_two_frames) /\
  covers [span 1 3] (Fin 1).
Proof.
  assert (Forall lasting_frames two_frame_stream) as Hall.
  { repeat constructor; simpl; lia. }
  assert ([span 1 3] <> wanted (loader after_two_frames)) as Hne
    by discriminate.
  split; [exact Hall|]. split; [exact Hne|].
  apply (proj1 (set_request_snapshot_within_wanted two_frame_stream
                  after_two_frames [span 1 3] None Hall eq_refl Hne)
           (Fin 1)).
  simpl. auto.
Defined.

(** ** Progress of a pass *)

Lemma overlap_begin_holds s t o :
  canonical s ->
  deref s (overlap_begin s t) = Some o ->
  covers s t -> contains o t.
Proof.
  unfold deref, overlap_begin. intros Hs.
  induction s as [|j s IH]; simpl; [discriminate|].
  apply canonical_cons_inv in Hs. destruct Hs as (Hj & Hs & Hgap).
  destruct (sec_ltb_spec t (i_end j)) as [Hlt | Hge]; simpl.
  - intros [= <-] Hcov. apply covers_cons in Hcov.
    destruct Hcov as [Hc | (i & Hi & Hc)]; [exact Hc|].
    exfalso. specialize (Hgap i Hi). unfold gap in Hgap.
    clear - Hlt Hgap Hc. sec_arith.
  - intros Ho Hcov. apply IH; [exact Hs | exact Ho|].
    apply covers_cons in Hcov. destruct Hcov as [Hc | Hcov]; [|exact Hcov].
    exfalso. clear - Hge Hc. sec_arith.
Qed.

(** X17.  A decode step settles the instant it was made for.  Whenever the
    step for [need] produced no frame, or a frame that begins at or before
    [need.begin] and ends after it, [need.begin] is not needed any more
    once the result is classified (for a canonical [wanted]): it is then
    covered by [done], at or after [eof], or no longer wanted.  So the next
    pass does not come back to the same instant. *)
Theorem decode_step_settles_need_begin (sys sys' : System) (need : Interval)
    (needed : list Interval) (changes : nat) (keep_decoders : DecoderMap)
    (pos : Seconds) (decoder : Decoder) (a : Answers) :
  canonical (wanted (loader sys)) ->
  phase sys = Decoding need needed changes keep_decoders pos decoder ->
  step (Decode a) sys = Some sys' ->
  (forall f, fst (fst (decode_step (i_begin need) pos a)) = Some f ->
             sec_le (i_begin (time f)) (i_begin need) /\
             sec_lt (i_begin need) (i_end (time f))) ->
  ~ covers (compute_needed (loader sys')) (i_begin need).
Proof.
  intros Hcan Hph Hstep Hframe Hneeded.
  apply compute_needed_covers in Hneeded.
  destruct Hneeded as (Hw & Hnd & Heof).
  unfold step in Hstep. rewrite Hph in Hstep. unfold finish_decode in Hstep.
  destruct (decode_step (i_begin need) pos a) as [[frame img] pos'].
  simpl in Hframe.
  destruct (classify _ _ _ _ _) as [[st' c']|] eqn:Hc; [|discriminate].
  injection Hstep as <-. simpl in *.
  unfold classify in Hc. destruct frame as [f|].
  - destruct (Hframe f eq_refl) as [Hfb Hfe]. clear Hframe.
    destruct (Nat.eqb _ _) eqn:Hov.
    + injection Hc as <- <-. apply Nat.eqb_eq in Hov.
      destruct Hw as (i & Hi & Hci).
      apply (proj1 (overlap_range_empty _ _ _ Hcan Hfe) Hov i Hi).
      unfold meets. revert Hci Hfe.
      generalize (i_begin need) (i_end (time f)). clear. intros x y.
      sec_crush.
    + destruct (deref _ _) as [o|] eqn:Ho; [|discriminate].
      destruct (sec_ltb_spec (i_begin (time f)) (i_begin o)) as [Hlt | Hge];
        injection Hc as <- <-; simpl in *.
      * pose proof (overlap_begin_holds _ _ _ Hcan Ho Hw) as Hco.
        apply Hnd, covers_insert. left. revert Hco Hfe.
        generalize (i_begin need) (i_end (time f)). clear. intros x y.
        sec_crush.
      * apply Hnd, covers_insert. left. revert Hfb Hfe.
        destruct (time f) as [fb fe]. simpl.
        generalize (i_begin need). clear. intros x. sec_crush.
  - destruct (eof (load (loader sys))) as [e|] eqn:He.
    + destruct (sec_ltb_spec (i_begin need) e) as [Hlt | Hge].
      * injection Hc as <- <-. simpl in *.
        apply (sec_lt_irrefl (i_begin need)). apply Heof. reflexivity.
      * assert (st' = loader sys) as ->
          by (destruct (sec_eqb _ _); congruence).
        apply Hge, Heof, He.
    + injection Hc as <- <-. simpl in *.
      apply (sec_lt_irrefl (i_begin need)). apply Heof. reflexivity.
Qed.

Lemma decode_step_settles_need_begin_witness :
  let st := mkLoader [span 0 9] None (mkLoaded [] [] None) false false [] in
  let sys := mkSystem st [] (Decoding (span 0 9) [] 0 [] (Fin 0) 1%nat) in
  let a := mkAnswers false (frame_at 0 1) (Some 100%nat) in
  exists sys',
    step (Decode a) sys = Some sys' /\
    compute_needed (loader sys') = [span 1 9] /\
    ~ covers (compute_needed (loader sys')) (Fin 0).
Proof.
  intros st sys a.
  assert (canonical (wanted (loader sys))) as Hcan.
  { split; repeat constructor. }
  eexists. split; [reflexivity|]. split; [reflexivity|].
  apply (decode_step_settles_need_begin sys _ (span 0 9) [] 0 [] (Fin 0)
           1%nat a Hcan eq_refl eq_refl).
  simpl. intros f [= <-]. simpl. lia.
Defined.

(** X21.  No seek for a decoder that is already there.  When the pool
    holds a decoder positioned exactly at [need.begin], that decoder is the
    one taken for [need], and the decode step that follows calls
    [next_frame] without seeking: what [seek_before] would have answered
    makes no difference to where the step ends. *)
Theorem decoder_at_need_begin_needs_no_seek (loader : Loader)
    (pool : DecoderMap) (need : Interval) (needed : list Interval)
    (changes : nat) (keep_decoders : DecoderMap) (decoder : Decoder) :
  map_ok pool ->
  In (i_begin need, decoder) pool ->
  exists rest,
    step Run (mkSystem loader pool
                (AtNeed (need :: needed) changes keep_decoders))
      = Some (mkSystem loader rest
                (Decoding need needed changes keep_decoders
                   (i_begin need) decoder)) /\
    (forall e, In e pool <-> e = (i_begin need, decoder) \/ In e rest) /\
    forall seek_throws next upload,
      step (Decode (mkAnswers seek_throws next upload))
           (mkSystem loader rest
              (Decoding need needed changes keep_decoders
                 (i_begin need) decoder))
      = step (Decode (mkAnswers false next upload))
             (mkSystem loader rest
                (Decoding need needed changes keep_decoders
                   (i_begin need) decoder)).
Proof.
  intros Hok Hin.
  assert (forall (before after : DecoderMap) pos d,
            pool = before ++ (pos, d) :: after ->
            sec_le pos (i_begin need) ->
            (forall e, In e after -> sec_lt (i_begin need) (fst e)) ->
            pos = i_begin need /\ d = decoder) as Hpick.
  { intros before after pos d E Hle Hafter.
    pose proof Hok as Hs. unfold map_ok, keys in Hs.
    rewrite E, map_app in Hs. simpl in Hs.
    apply sorted_app_inv in Hs. destruct Hs as (_ & Hs2 & H12).
    rewrite E in Hin. apply in_app_or in Hin.
    destruct Hin as [Hin | [[= -> ->] | Hin]].
    - exfalso. assert (sec_lt (i_begin need) pos) as Hlt.
      { apply H12; [|simpl; auto].
        apply (in_map fst) in Hin. exact Hin. }
      revert Hle Hlt. generalize (i_begin need). clear. intros x. sec_arith.
    - auto.
    - exfalso. apply Hafter in Hin. simpl in Hin.
      apply (sec_lt_irrefl _ Hin). }
  destruct (select_decoder_cases pool (i_begin need) Hok)
    as [[E _] | [(pos & d & after & E & Hlt & Hsel)
               | (before & pos & d & after & E & Hle & Hafter & Hsel)]].
  - rewrite E in Hin. destruct Hin.
  - exfalso. rewrite E in Hin. destruct Hin as [[= Hp _] | Hin].
    + rewrite Hp in Hlt. apply (sec_lt_irrefl _ Hlt).
    + rewrite E in Hok.
      pose proof (sorted_head_least _ _ _ _ _ Hok Hin) as Hl. simpl in Hl.
      revert Hlt Hl. generalize (i_begin need). clear. intros x. sec_arith.
  - destruct (Hpick before after pos d E Hle Hafter) as [-> ->].
    exists (before ++ after). split; [|split].
    + unfold step. simpl. rewrite Hsel. reflexivity.
    + intros e. rewrite E, !in_app_iff. simpl. intuition congruence.
    + intros seek_throws next upload. unfold step. simpl.
      unfold finish_decode, decode_step. simpl.
      destruct (sec_eqb_spec (i_begin need) (i_begin need)); [|congruence].
      reflexivity.
Qed.

Lemma decoder_at_need_begin_needs_no_seek_witness :
  let st := mkLoader [span 0 9] None (mkLoaded [] [span 0 3] None)
              false false [] in
  step Run (mkSystem st [(Fin 1, 10%nat); (Fin 3, 11%nat)]
              (AtNeed [span 3 9] 0 []))
  = Some (mkSystem st [(Fin 1, 10%nat)]
            (Decoding (span 3 9) [] 0 [] (Fin 3) 11%nat)).
Proof.
  intros st.
  assert (map_ok [(Fin 1, 10%nat); (Fin 3, 11%nat)]) as Hok.
  { unfold map_ok; simpl. repeat constructor; simpl; lia. }
  destruct (decoder_at_need_begin_needs_no_seek st
              [(Fin 1, 10%nat); (Fin 3, 11%nat)] (span 3 9) [] 0 [] 11%nat
              Hok (or_intror (or_introl eq_refl)))
    as (rest & Hstep & _).
  rewrite Hstep. simpl in Hstep. injection Hstep as <-. reflexivity.
Defined.

(* ================================================================== *)
(** * Debugging descriptions and the choice of a device *)

Module TextFacts.
Import String.
Import Text.
Local Open Scope string_scope.

Lemma append_assoc (a b c : string) : (a ++ b) ++ c = a ++ (b ++ c).
Proof. induction a as [|x a IH]; simpl; [reflexivity | rewrite IH; reflexivity]. Qed.

Lemma length_append (a b : string) :
  length (a ++ b) = (length a + length b)%nat.
Proof. induction a as [|x a IH]; simpl; [reflexivity | rewrite IH; reflexivity]. Qed.

Section DebugFacts.

Variable debug_seconds : Seconds -> string.

Lemma debug_interval_not_empty i :
  (1 <= length (debug_interval debug_seconds i))%nat.
Proof.
  unfold debug_interval. rewrite !length_append. simpl. lia.
Qed.

(** Once something follows the opening brace, every further interval is
    appended behind a separator. *)
Lemma debug_append_rest s : forall out,
  (1 < length out)%nat ->
  fold_left (debug_append debug_seconds) s out =
  out ++ fold_right (fun y rest => ", " ++ y ++ rest) ""
           (map (debug_interval debug_seconds) s).
Proof.
  induction s as [|i s IH]; intros out Hlen; simpl.
  - clear. induction out as [|x out IH]; simpl; congruence.
  - rewrite IH.
    + unfold debug_append.
      destruct (Nat.ltb_spec 1 (length out)) as [_ | Hle]; [|lia].
      rewrite !append_assoc. reflexivity.
    + unfold debug_append.
      destruct (Nat.ltb_spec 1 (length out)) as [_ | Hle]; [|lia].
      rewrite !length_append. lia.
Qed.

Lemma concat_rest sep x s :
  concat sep (x :: s) =
  x ++ fold_right (fun y rest => sep ++ y ++ rest) "" s.
Proof.
  revert x. induction s as [|y s IH]; intros x.
  - simpl. clear. induction x as [|c x IH]; simpl; congruence.
  - change (concat sep (x :: y :: s)) with (x ++ sep ++ concat sep (y :: s)).
    rewrite IH. reflexivity.
Qed.

(** X18.  [debug] of an interval set is the texts of its intervals, in
    order, joined by ", " between braces, and "{}" for the empty set:
    testing [out.size() > 1] tells the first interval from the others
    whatever [debug(Seconds)] prints, since the text of an interval always
    holds its "~". *)
Theorem debug_set_joins_intervals (s : IntervalSet) :
  debug_set debug_seconds s =
  "{" ++ concat ", " (map (debug_interval debug_seconds) s) ++ "}".
Proof.
  unfold debug_set. destruct s as [|i s]; [reflexivity|].
  simpl fold_left. simpl map. rewrite concat_rest.
  assert (debug_append debug_seconds "{" i
          = "{" ++ debug_interval debug_seconds i) as -> by reflexivity.
  rewrite debug_append_rest.
  - rewrite !append_assoc. reflexivity.
  - pose proof (debug_interval_not_empty i).
    change (length ("{" ++ debug_interval debug_seconds i))
      with (S (length (debug_interval debug_seconds i))). lia.
Qed.

End DebugFacts.

Lemma found_in_empty_needle text : found_in "" text = true.
Proof. destruct text; reflexivity. Qed.

Section FindDriverFacts.

Variable debug_listing : DisplayDriverListing -> string.

Lemma find_driver_found dev_arg listings d :
  fold_left (find_driver_round debug_listing dev_arg) listings (Some d)
  = Some d.
Proof. induction listings as [|x l IH]; simpl; auto. Qed.

(** X19.  [find_driver] opens the first listing, in the order given, whose
    debug text contains [dev_arg], and throws "No matching device" when
    there is none; with an empty [dev_arg] it opens the first listing there
    is. *)
Theorem find_driver_opens_first_match (dev_arg : string)
    (listings : list DisplayDriverListing) :
  find_driver debug_listing dev_arg listings =
    match find (fun d => found_in dev_arg (debug_listing d)) listings with
    | Some d => inr (dev_file d)
    | None => inl "No matching device"
    end /\
  find_driver debug_listing "" listings =
    match listings with
    | d :: _ => inr (dev_file d)
    | nil => inl "No matching device"
    end.
Proof.
  assert (forall arg,
    fold_left (find_driver_round debug_listing arg) listings None
    = find (fun d => found_in arg (debug_listing d)) listings) as Hfold.
  { intros arg. induction listings as [|d l IH]; simpl; [reflexivity|].
    destruct (found_in arg (debug_listing d)); [|exact IH].
    apply find_driver_found. }
  unfold find_driver. rewrite !Hfold. split.
  - destruct (find _ listings); reflexivity.
  - destruct listings as [|d l]; [reflexivity|]. simpl.
    rewrite found_in_empty_needle. reflexivity.
Qed.

End FindDriverFacts.

Lemma pick_device_chosen dev_arg listings : forall chosen,
  is_empty chosen = false ->
  fold_left (pick_device_round dev_arg) listings chosen = chosen.
Proof.
  induction listings as [|d l IH]; intros chosen Hc; simpl; [reflexivity|].
  unfold pick_device_round at 2. rewrite Hc. simpl. apply IH, Hc.
Qed.

(** X20.  The test program opens the [dev_file] of the first listing that
    names [dev_arg] in its dev file, system path, driver or bus id and has
    a [dev_file] that is not empty; a listing that matches with an empty
    [dev_file] is passed over, and when no listing qualifies "No matching
    device" is thrown. *)
Theorem pick_device_opens_first_named (dev_arg : string)
    (listings : list DisplayDriverListing) :
  pick_device dev_arg listings =
    match find (fun d => names_device dev_arg d
                         && negb (is_empty (dev_file d))) listings with
    | Some d => inr (dev_file d)
    | None => inl "No matching device"
    end.
Proof.
  unfold pick_device.
  induction listings as [|d l IH]; simpl; [reflexivity|].
  unfold pick_device_round at 2 4. simpl.
  destruct (names_device dev_arg d); simpl; [|exact IH].
  destruct (is_empty (dev_file d)) eqn:He; simpl.
  - destruct (dev_file d); [exact IH | discriminate].
  - rewrite !pick_device_chosen by exact He. rewrite He. reflexivity.
Qed.

End TextFacts.
